(** * llalbm: the inlet/outlet velocity initializers

    A shallow embedding of
    [src/llalbm/src/core/initializers/InletOutletInitializer.hpp]:
    the four initializer policies [VelocityInitializer],
    [OMPVelocityInitializer], [STDExecVelocityInitializer] and
    [OpenACCVelocityInitializer], their static members, and the three
    operations [attach_nodes], [attach_update_functions] and
    [update_nodes].

    Layout of the development:
    - [Eigen]: the part of Eigen's dense tensor that [update_nodes] uses
      (column-major storage, the range check of [operator()], assignment
      through the returned reference);
    - [Control]: the commands the loops are built from, a state and
      exception monad;
    - [StdArray], [Lattice], [Policy]: fixed-size arrays, the template
      parameters, the static members, the loop body, and the store
      requests a run serves;
    - [VelocityInitializer], [OpenACCVelocityInitializer],
      [OMPVelocityInitializer], [STDExecVelocityInitializer]: the four
      [update_nodes], the parallel ones as relations over the schedules
      of [Schedule];
    - [Lid2D]: a two-dimensional instance for concrete runs;
    - the properties of [update_nodes], and the claims of the
      specification;
    - further properties of [update_nodes] (overwriting, failures,
      order of the nodes), [print_data] over [Stream], the set-up of
      [LidWithOMPPSobstacle.cpp], and more on the index array that
      [STDExecVelocityInitializer] shares. *)

From Stdlib Require Import ZArith List Lia PrimFloat.
From stdpp Require Import base list.

Open Scope Z_scope.

(** C++ [double]: a binary64 value. The initializers only move such
    values around (no arithmetic), so equality of fields is equality of
    the stored bit patterns. *)
Definition double : Type := float.

(* ===================================================================== *)
(** ** Eigen tensors *)
(* ===================================================================== *)

Module Eigen.

(** [Eigen::Index] *)
Definition Index : Type := Z.

(** [DSizes::IndexOfColMajor]: Eigen's default (column-major) layout,
    [indices[0] + dimensions[0] * (indices[1] + dimensions[1] * ...)]. *)
Fixpoint IndexOfColMajor (dimensions indices : list Index) : Index :=
  match indices, dimensions with
  | i :: indices', d :: dimensions' =>
      i + d * IndexOfColMajor dimensions' indices'
  | _, _ => 0
  end.

(** [Tensor::checkIndexRange]: every index is non-negative and below
    the extent of its axis. Index array and tensor have the same rank
    in the source; a rank mismatch is out of range here. *)
Fixpoint checkIndexRange (dimensions indices : list Index) : bool :=
  match indices, dimensions with
  | [], [] => true
  | i :: indices', d :: dimensions' =>
      (0 <=? i) && (i <? d) && checkIndexRange dimensions' indices'
  | _, _ => false
  end.

(** [DSizes::TotalSize] *)
Definition TotalSize (dimensions : list Index) : Index :=
  fold_right Z.mul 1 dimensions.

(** [Eigen::Tensor<double, rank>]: the extents and the linear storage. *)
Record Tensor : Type := mkTensor {
  dimensions : list Index;
  data : list double
}.

(** The storage holds exactly [TotalSize] scalars. *)
Definition allocated (t : Tensor) : Prop :=
  length (data t) = Z.to_nat (TotalSize (dimensions t)).

(** Reading [t(indices)]. [operator()] starts with
    [eigen_assert(checkIndexRange(indices))]; a failed assertion is
    [None]. *)
Definition coeff (t : Tensor) (indices : list Index) : option double :=
  if checkIndexRange (dimensions t) indices
  then data t !! Z.to_nat (IndexOfColMajor (dimensions t) indices)
  else None.

(** [t(indices) = val]: assignment through the reference that
    [operator()] returns; [None] when the assertion fails. *)
Definition assign (t : Tensor) (indices : list Index) (val : double)
  : option Tensor :=
  if checkIndexRange (dimensions t) indices
  then Some (mkTensor (dimensions t)
               (<[Z.to_nat (IndexOfColMajor (dimensions t) indices) := val]>
                  (data t)))
  else None.

(** *** Arithmetic of the layout *)

Lemma checkIndexRange_cons d ds i idx :
  checkIndexRange (d :: ds) (i :: idx) = true <->
  0 <= i < d /\ checkIndexRange ds idx = true.
Proof.
  simpl. rewrite !andb_true_iff, Z.leb_le, Z.ltb_lt. tauto.
Qed.

Lemma checkIndexRange_length ds : forall idx,
  checkIndexRange ds idx = true -> length idx = length ds.
Proof.
  induction ds as [|d ds IH]; intros [|i idx] H; simpl in H;
    try discriminate; [reflexivity|].
  apply checkIndexRange_cons in H as [_ H]. simpl. f_equal. auto.
Qed.

(** An index tuple in range is linearised below [TotalSize]. *)
Lemma IndexOfColMajor_bounds ds : forall idx,
  checkIndexRange ds idx = true ->
  0 <= IndexOfColMajor ds idx < TotalSize ds.
Proof.
  induction ds as [|d ds IH]; intros [|i idx] H; simpl in H;
    try discriminate.
  - simpl. unfold TotalSize. simpl. lia.
  - apply checkIndexRange_cons in H as [Hi H].
    specialize (IH _ H). unfold TotalSize in *. simpl. nia.
Qed.

(** Column-major linearisation is injective on tuples in range: two
    different index tuples never name the same storage cell. *)
Lemma IndexOfColMajor_inj ds : forall a b,
  checkIndexRange ds a = true -> checkIndexRange ds b = true ->
  IndexOfColMajor ds a = IndexOfColMajor ds b -> a = b.
Proof.
  induction ds as [|d ds IH]; intros [|i a] [|j b] Ha Hb E;
    simpl in Ha, Hb; try discriminate; [reflexivity|].
  apply checkIndexRange_cons in Ha as [Hi Ha].
  apply checkIndexRange_cons in Hb as [Hj Hb].
  simpl in E.
  assert (Hr : IndexOfColMajor ds a = IndexOfColMajor ds b) by nia.
  assert (i = j) by nia.
  subst j. f_equal. auto.
Qed.

(** *** Reading after writing *)

Lemma assign_Some t idx val t' :
  assign t idx val = Some t' ->
  checkIndexRange (dimensions t) idx = true /\
  t' = mkTensor (dimensions t)
         (<[Z.to_nat (IndexOfColMajor (dimensions t) idx) := val]> (data t)).
Proof.
  unfold assign. destruct (checkIndexRange _ _); [|discriminate].
  intros [= <-]. auto.
Qed.

Lemma assign_in_range t idx val :
  checkIndexRange (dimensions t) idx = true ->
  exists t', assign t idx val = Some t'.
Proof. unfold assign. intros ->. eauto. Qed.

Lemma assign_out_of_range t idx val :
  checkIndexRange (dimensions t) idx = false -> assign t idx val = None.
Proof. unfold assign. intros ->. reflexivity. Qed.

Lemma assign_dimensions t idx val t' :
  assign t idx val = Some t' -> dimensions t' = dimensions t.
Proof. intros H. apply assign_Some in H as [_ ->]. reflexivity. Qed.

Lemma assign_allocated t idx val t' :
  assign t idx val = Some t' -> allocated t -> allocated t'.
Proof.
  intros H. apply assign_Some in H as [_ ->]. unfold allocated. simpl.
  now rewrite length_insert.
Qed.

Lemma coeff_assign_same t idx val t' :
  allocated t -> assign t idx val = Some t' -> coeff t' idx = Some val.
Proof.
  intros Hal H. apply assign_Some in H as [Hr ->].
  unfold coeff. simpl. rewrite Hr.
  apply list_lookup_insert_eq. rewrite Hal.
  pose proof (IndexOfColMajor_bounds _ _ Hr). lia.
Qed.

Lemma coeff_assign_other t idx val t' idx' :
  assign t idx val = Some t' -> idx' <> idx -> coeff t' idx' = coeff t idx'.
Proof.
  intros H Hne. apply assign_Some in H as [Hr ->].
  unfold coeff. simpl.
  destruct (checkIndexRange (dimensions t) idx') eqn:Hr'; [|reflexivity].
  apply list_lookup_insert_ne. intros E.
  apply Hne. symmetry.
  apply (IndexOfColMajor_inj (dimensions t)); auto.
  pose proof (IndexOfColMajor_bounds _ _ Hr).
  pose proof (IndexOfColMajor_bounds _ _ Hr'). lia.
Qed.

(** Every cell in range of an allocated tensor can be read. *)
Lemma coeff_is_Some t idx :
  allocated t -> checkIndexRange (dimensions t) idx = true ->
  is_Some (coeff t idx).
Proof.
  intros Hal Hr. unfold coeff. rewrite Hr. apply lookup_lt_is_Some.
  rewrite Hal. pose proof (IndexOfColMajor_bounds _ _ Hr). lia.
Qed.

End Eigen.

(* ===================================================================== *)
(** ** Commands: state passing with C++ exceptions *)
(* ===================================================================== *)

Module Control.

(** The two ways a call of [update_nodes] ends abnormally:
    [std::bad_function_call], thrown when an empty [std::function] is
    invoked, and a failed [eigen_assert]. *)
Inductive exception : Type :=
| bad_function_call
| assertion_failure.

Inductive result (A : Type) : Type :=
| Return (a : A)
| Throw (e : exception).
Arguments Return {A} a.
Arguments Throw {A} e.

(** A command over a state [St]: the state it leaves behind (writes made
    before an exception stay made) and how it ended. *)
Definition M (St A : Type) : Type := St -> St * result A.

Definition ret {St A} (a : A) : M St A := fun s => (s, Return a).

Definition throw {St A} (e : exception) : M St A := fun s => (s, Throw e).

Definition bind {St A B} (c : M St A) (k : A -> M St B) : M St B :=
  fun s =>
    match c s with
    | (s', Return a) => k a s'
    | (s', Throw e) => (s', Throw e)
    end.

Definition skip {St} : M St unit := ret tt.

(** [for (x : l) body(x)], left to right; an exception leaves the loop. *)
Fixpoint for_each {St A} (l : list A) (body : A -> M St unit) : M St unit :=
  match l with
  | [] => skip
  | x :: l' => bind (body x) (fun _ => for_each l' body)
  end.

(** [for (std::size_t i = 0; i < n; ++i) body(i)] *)
Definition for_range {St} (n : nat) (body : nat -> M St unit) : M St unit :=
  for_each (seq 0 n) body.

(** Completion of a command that returns nothing. *)
Definition Normal : result unit := Return tt.

(** How a call of one of the parallel policies ends for its caller. An
    exception that leaves a pass of an OpenMP loop, or the function
    object given to a parallel algorithm, never reaches the caller:
    [std::terminate] ends the program, as [abort] does after a failed
    [eigen_assert]. Then nothing is handed back: no exception to catch,
    no field to look at. *)
Inductive outcome (St : Type) : Type :=
| Returns (s : St)
| Terminates.
Arguments Returns {St} s.
Arguments Terminates {St}.

End Control.

Import Control.

Declare Scope cmd_scope.
Delimit Scope cmd_scope with cmd.
Notation "x <- c1 ;; c2" := (bind c1 (fun x => c2))
  (at level 100, c1 at next level, c2 at level 200, right associativity)
  : cmd_scope.
Notation "c1 ;; c2" := (bind c1 (fun _ => c2))
  (at level 100, c2 at level 200, right associativity) : cmd_scope.

Section ControlFacts.
Context {St : Type}.

Lemma bind_Return {A B} (c : M St A) (k : A -> M St B) s s' a :
  c s = (s', Return a) -> bind c k s = k a s'.
Proof. unfold bind. intros ->. reflexivity. Qed.

Lemma bind_Throw {A B} (c : M St A) (k : A -> M St B) s s' e :
  c s = (s', Throw e) -> bind c k s = (s', Throw e).
Proof. unfold bind. intros ->. reflexivity. Qed.

Lemma bind_assoc {A B C} (c : M St A) (k : A -> M St B) (h : B -> M St C) s :
  bind (bind c k) h s = bind c (fun a => bind (k a) h) s.
Proof. unfold bind. destruct (c s) as [s' [a|e]]; reflexivity. Qed.

Lemma bind_ext {A B} (c1 c2 : M St A) (k1 k2 : A -> M St B) s :
  c1 s = c2 s -> (forall a s', k1 a s' = k2 a s') ->
  bind c1 k1 s = bind c2 k2 s.
Proof.
  intros Hc Hk. unfold bind. rewrite Hc.
  destruct (c2 s) as [s' [a|e]]; [apply Hk | reflexivity].
Qed.

Lemma for_each_app {A} (l1 l2 : list A) (body : A -> M St unit) s :
  for_each (l1 ++ l2) body s =
  bind (for_each l1 body) (fun _ => for_each l2 body) s.
Proof.
  revert s. induction l1 as [|x l1 IH]; intros s; simpl.
  - reflexivity.
  - rewrite bind_assoc. unfold bind at 1 2.
    destruct (body x s) as [s' [[]|e]]; [|reflexivity].
    apply IH.
Qed.

Lemma for_each_ext {A} (l : list A) (f g : A -> M St unit) :
  (forall x s, In x l -> f x s = g x s) ->
  forall s, for_each l f s = for_each l g s.
Proof.
  induction l as [|x l IH]; intros H s; simpl; [reflexivity|].
  unfold bind. rewrite (H x s) by (left; reflexivity).
  destruct (g x s) as [s' [[]|e]]; [|reflexivity].
  apply IH. intros y s'' Hy. apply H. right. exact Hy.
Qed.

Lemma for_each_map {A B} (h : A -> B) (l : list A) (body : B -> M St unit) s :
  for_each (map h l) body s = for_each l (fun x => body (h x)) s.
Proof.
  revert s. induction l as [|x l IH]; intros s; simpl; [reflexivity|].
  unfold bind. destruct (body (h x) s) as [s' [[]|e]]; [|reflexivity].
  apply IH.
Qed.

(** A counted loop that reads [v[i]] at every step visits the elements
    of [v] in order. *)
Lemma for_range_lookup {A} (v : list A) (body : A -> M St unit) s :
  for_range (length v)
    (fun i => match v !! i with Some x => body x | None => skip end) s =
  for_each v body s.
Proof.
  unfold for_range.
  assert (G : forall (pre : list A) s,
    for_each (seq (length pre) (length v))
      (fun i => match (pre ++ v) !! i with Some x => body x | None => skip end) s
    = for_each v body s).
  { clear s. induction v as [|x v IH]; intros pre s; simpl; [reflexivity|].
    rewrite list_lookup_middle by reflexivity.
    unfold bind. destruct (body x s) as [s' [[]|e]]; [|reflexivity].
    specialize (IH (pre ++ [x]) s').
    rewrite length_app in IH. simpl in IH.
    replace (length pre + 1)%nat with (S (length pre)) in IH by lia.
    rewrite <- app_assoc in IH. exact IH. }
  apply (G [] s).
Qed.

End ControlFacts.

(* ===================================================================== *)
(** ** The initializer policies *)
(* ===================================================================== *)

(** [std::array<A, N>] as its index map; [N] is part of the C++ type, and
    the code reads and writes indices below [N] only. *)
Module StdArray.

Definition array (A : Type) : Type := nat -> A.

(** [a[k] = x] *)
Definition set {A} (a : array A) (k : nat) (x : A) : array A :=
  fun i => if Nat.eqb i k then x else a i.

(** The [N] elements of the array, in order. *)
Definition to_list {A} (N : nat) (a : array A) : list A := map a (seq 0 N).

Lemma set_same {A} (a : array A) k x : set a k x k = x.
Proof. unfold set. now rewrite Nat.eqb_refl. Qed.

Lemma set_other {A} (a : array A) k x i : i <> k -> set a k x i = a i.
Proof. unfold set. intros H. apply Nat.eqb_neq in H. now rewrite H. Qed.

Lemma to_list_ext {A} N (a b : array A) :
  (forall k, (k < N)%nat -> a k = b k) -> to_list N a = to_list N b.
Proof.
  intros H. unfold to_list. apply map_ext_in. intros k Hk.
  apply in_seq in Hk. apply H. lia.
Qed.

Lemma to_list_S {A} N (a : array A) : to_list (S N) a = to_list N a ++ [a N].
Proof. unfold to_list. rewrite seq_S, map_app. reflexivity. Qed.

Lemma to_list_length {A} N (a : array A) : length (to_list N a) = N.
Proof. unfold to_list. now rewrite length_map, length_seq. Qed.

End StdArray.

Import StdArray.

(** The template parameter [dim] and the point type. [BoundaryPoint<dim>]
    is declared in [utils/aliases.hpp], outside the sources at hand; the
    initializers use nothing of it but the member [coords], an array of
    [dim] indices, so the type is a parameter together with that member. *)
Class Lattice : Type := {
  dim : nat;
  BoundaryPoint : Type;
  coords : BoundaryPoint -> array Eigen.Index
}.

Module Policy.
Section Definitions.
Context {L : Lattice}.

(** The coordinate tuple of a point: [coords[0], ..., coords[dim-1]]. *)
Definition Point (p : BoundaryPoint) : list Eigen.Index :=
  to_list dim (coords p).

(** [std::function<double (double, BoundaryPoint<dim>)>]: empty, or
    holding a target. Targets are pure: they neither read nor write
    lattice fields. *)
Definition update_function : Type := option (double -> BoundaryPoint -> double).

(** The static data members shared by the four policy classes
    ([lattice_dimensions] is declared in each class but never defined
    nor used). *)
Record Statics : Type := mkStatics {
  inlet_nodes : list BoundaryPoint;
  outlet_nodes : list BoundaryPoint;
  inlet_update_function : array update_function;
  outlet_update_function : array update_function
}.

(** What a call can observe and change: the static members of the
    policy class, the caller's velocity tensor (passed by reference)
    and the caller's density tensor (passed by value). *)
Record State : Type := mkState {
  policy : Statics;
  velocity : Eigen.Tensor;
  density : Eigen.Tensor
}.

(** [attach_nodes]: both vectors are copy-assigned. The four classes
    have the same text. *)
Definition attach_nodes (inlet_nodes_ outlet_nodes_ : list BoundaryPoint)
    (s : State) : State :=
  mkState
    (mkStatics inlet_nodes_ outlet_nodes_
       (inlet_update_function (policy s)) (outlet_update_function (policy s)))
    (velocity s) (density s).

(** [attach_update_functions]: both arrays are copy-assigned. *)
Definition attach_update_functions
    (inlet_update_function_ outlet_update_function_ : array update_function)
    (s : State) : State :=
  mkState
    (mkStatics (inlet_nodes (policy s)) (outlet_nodes (policy s))
       inlet_update_function_ outlet_update_function_)
    (velocity s) (density s).

(** A state in which no node is registered. *)
Definition unregistered
    (inlet_update_function_ outlet_update_function_ : array update_function)
    (velocity_ density_ : Eigen.Tensor) : State :=
  mkState (mkStatics [] [] inlet_update_function_ outlet_update_function_)
    velocity_ density_.

(** The activation of [update_nodes]: the local index array
    [coordinates] (of size [dim+1]) and the tensor that the reference
    parameter [velocity_tensor] denotes. *)
Record Frame : Type := mkFrame {
  coordinates : array Eigen.Index;
  velocity_tensor : Eigen.Tensor
}.

(** [coordinates[k] = x;] *)
Definition set_coordinate (k : nat) (x : Eigen.Index) : M Frame unit :=
  fun fr => (mkFrame (set (coordinates fr) k x) (velocity_tensor fr), Normal).

(** [f(time_step, node)]: invoking an empty [std::function] throws. *)
Definition call (f : update_function) (time_step : double)
    (node : BoundaryPoint) : M Frame double :=
  match f with
  | Some target => ret (target time_step node)
  | None => throw bad_function_call
  end.

(** [velocity_tensor(coordinates) = val;] *)
Definition store (val : double) : M Frame unit :=
  fun fr =>
    match Eigen.assign (velocity_tensor fr)
            (to_list (S dim) (coordinates fr)) val with
    | Some t => (mkFrame (coordinates fr) t, Normal)
    | None => (fr, Throw assertion_failure)
    end.

(** The body of the loop over nodes: copy the node's coordinates into
    the index array, then for each dimension [j] select component [j],
    evaluate the [j]-th update function and store its value. *)
Definition update_node (fns : array update_function) (time_step : double)
    (node : BoundaryPoint) : M Frame unit :=
  (for_range dim (fun k => set_coordinate k (coords node k)) ;;
   for_range dim (fun j =>
     set_coordinate dim (Z.of_nat j) ;;
     val <- call (fns j) time_step node ;;
     store val))%cmd.

(** [Eigen::array<Eigen::Index, dim+1> coordinates;] is not
    initialised; the model starts it at zero, and [update_node_stores]
    below shows that no run depends on that choice. *)
Definition indeterminate : array Eigen.Index := fun _ => 0.


(** *** The stores of a run

    What a run does to the velocity tensor is a sequence of store
    requests: a cell, and the value to put there, or no value when the
    update function is empty. *)
Definition store_request : Type := list Eigen.Index * option double.

(** The requests are served in order; the first one that cannot be
    served ends the run with its exception. *)
Fixpoint apply_stores (ws : list store_request) (t : Eigen.Tensor)
  : Eigen.Tensor * result unit :=
  match ws with
  | [] => (t, Normal)
  | (_, None) :: _ => (t, Throw bad_function_call)
  | (idx, Some val) :: ws' =>
      match Eigen.assign t idx val with
      | Some t' => apply_stores ws' t'
      | None => (t, Throw assertion_failure)
      end
  end.

(** The cells of a node, one per dimension: its coordinates followed
    by the direction index. *)
Definition node_cells (node : BoundaryPoint) : list (list Eigen.Index) :=
  map (fun j => Point node ++ [Z.of_nat j]) (seq 0 dim).

(** The requests of one pass of the loop body. *)
Definition node_stores (fns : array update_function) (time_step : double)
    (node : BoundaryPoint) : list store_request :=
  map (fun j => (Point node ++ [Z.of_nat j],
                 option_map (fun target => target time_step node) (fns j)))
      (seq 0 dim).

(** A command performs [ws] when, from every frame, it changes the
    tensor and completes as serving [ws] does. *)
Definition performs (c : M Frame unit) (ws : list store_request) : Prop :=
  forall fr,
    (velocity_tensor (fst (c fr)), snd (c fr)) =
    apply_stores ws (velocity_tensor fr).

Lemma apply_stores_app ws1 ws2 t :
  apply_stores (ws1 ++ ws2) t =
  match apply_stores ws1 t with
  | (t', Return _) => apply_stores ws2 t'
  | (t', Throw e) => (t', Throw e)
  end.
Proof.
  revert t. induction ws1 as [|[idx [val|]] ws1 IH]; intros t; simpl.
  - reflexivity.
  - destruct (Eigen.assign t idx val); [apply IH | reflexivity].
  - reflexivity.
Qed.

Lemma performs_skip : performs skip [].
Proof. intros fr. reflexivity. Qed.

Lemma performs_bind c1 c2 ws1 ws2 :
  performs c1 ws1 -> performs c2 ws2 ->
  performs (bind c1 (fun _ => c2)) (ws1 ++ ws2).
Proof.
  intros H1 H2 fr. rewrite apply_stores_app, <- (H1 fr).
  unfold bind. destruct (c1 fr) as [fr1 [[]|e]]; simpl; [apply H2 | reflexivity].
Qed.

Lemma performs_for_each {A} (l : list A) (body : A -> M Frame unit)
    (w : A -> list store_request) :
  (forall x, In x l -> performs (body x) (w x)) ->
  performs (for_each l body) (flat_map w l).
Proof.
  induction l as [|x l IH]; intros H; simpl.
  - apply performs_skip.
  - apply performs_bind; [apply H; now left|].
    apply IH. intros y Hy. apply H. now right.
Qed.

(** The first inner loop leaves the node's coordinates in the first
    [dim] slots of the index array, whatever was there. *)
Lemma copy_coordinates node (l : list nat) : forall fr,
  exists c,
    for_each l (fun k => set_coordinate k (coords node k)) fr
      = (mkFrame c (velocity_tensor fr), Normal) /\
    (forall k, In k l -> c k = coords node k) /\
    (forall k, ~ In k l -> c k = coordinates fr k).
Proof.
  induction l as [|k0 l IH]; intros fr; simpl.
  - exists (coordinates fr). split; [destruct fr; reflexivity|].
    split; [intros k []|reflexivity].
  - unfold bind, set_coordinate at 1.
    destruct (IH (mkFrame (set (coordinates fr) k0 (coords node k0))
                    (velocity_tensor fr))) as (c & E & Hin & Hout).
    exists c. split; [exact E|]. simpl in Hout. split.
    + intros k [<-|Hk]; [|auto].
      destruct (in_dec Nat.eq_dec k0 l) as [Hl|Hl]; [auto|].
      rewrite (Hout _ Hl). apply set_same.
    + intros k Hk. simpl in Hk. rewrite Hout by tauto.
      apply set_other. intros ->. tauto.
Qed.

(** One step of the second inner loop, from a frame whose index array
    already holds the node's coordinates. *)
Lemma store_component fns time_step node j fr :
  (forall k, (k < dim)%nat -> coordinates fr k = coords node k) ->
  (set_coordinate dim (Z.of_nat j) ;;
   val <- call (fns j) time_step node ;;
   store val)%cmd fr =
  let c := set (coordinates fr) dim (Z.of_nat j) in
  match fns j with
  | None => (mkFrame c (velocity_tensor fr), Throw bad_function_call)
  | Some target =>
      match Eigen.assign (velocity_tensor fr) (Point node ++ [Z.of_nat j])
              (target time_step node) with
      | Some t' => (mkFrame c t', Normal)
      | None => (mkFrame c (velocity_tensor fr), Throw assertion_failure)
      end
  end.
Proof.
  intros Hc.
  assert (Hidx : to_list (S dim) (set (coordinates fr) dim (Z.of_nat j))
                 = Point node ++ [Z.of_nat j]).
  { rewrite to_list_S, set_same. f_equal. apply to_list_ext.
    intros k Hk. rewrite set_other by lia. auto. }
  unfold bind, set_coordinate, call.
  destruct (fns j) as [target|]; [|reflexivity].
  unfold ret, store. cbn [coordinates velocity_tensor]. rewrite Hidx.
  destruct (Eigen.assign _ _ _); reflexivity.
Qed.

Lemma store_components fns time_step node (l : list nat) : forall fr,
  (forall k, (k < dim)%nat -> coordinates fr k = coords node k) ->
  let r := for_each l (fun j =>
             set_coordinate dim (Z.of_nat j) ;;
             val <- call (fns j) time_step node ;;
             store val)%cmd fr in
  (velocity_tensor (fst r), snd r) =
  apply_stores
    (map (fun j => (Point node ++ [Z.of_nat j],
                    option_map (fun target => target time_step node) (fns j))) l)
    (velocity_tensor fr).
Proof.
  induction l as [|j l IH]; intros fr Hc; [reflexivity|].
  cbn zeta in *. cbn [for_each map apply_stores].
  pose proof (store_component fns time_step node j fr Hc) as E. cbn zeta in E.
  destruct (fns j) as [target|]; cbn [option_map];
    [|rewrite (bind_Throw _ _ _ _ _ E); reflexivity].
  destruct (Eigen.assign (velocity_tensor fr) (Point node ++ [Z.of_nat j])
              (target time_step node)) as [t'|];
    [|rewrite (bind_Throw _ _ _ _ _ E); reflexivity].
  rewrite (bind_Return _ _ _ _ _ E).
  apply (IH (mkFrame _ t')). simpl. intros k Hk.
  rewrite set_other by lia. auto.
Qed.

(** One pass of the loop body serves the node's requests, from any
    contents of the index array. *)
Lemma update_node_stores fns time_step node :
  performs (update_node fns time_step node) (node_stores fns time_step node).
Proof.
  intros fr. unfold update_node, for_range.
  destruct (copy_coordinates node (seq 0 dim) fr) as (c & E & Hin & _).
  rewrite (bind_Return _ _ _ _ _ E).
  pose proof (store_components fns time_step node (seq 0 dim)
                (mkFrame c (velocity_tensor fr))) as H.
  cbn zeta in H. simpl velocity_tensor in H. apply H.
  simpl. intros k Hk. apply Hin. apply in_seq. lia.
Qed.

End Definitions.

(** *** Serving store requests: what can be read afterwards *)
Section Stores.
Context {L : Lattice}.

Lemma apply_stores_dimensions ws : forall t,
  Eigen.dimensions (fst (apply_stores ws t)) = Eigen.dimensions t.
Proof.
  induction ws as [|[idx [val|]] ws IH]; intros t; simpl; try reflexivity.
  destruct (Eigen.assign t idx val) as [t'|] eqn:E; [|reflexivity].
  rewrite IH. eapply Eigen.assign_dimensions; eauto.
Qed.

Lemma apply_stores_allocated ws : forall t,
  Eigen.allocated t -> Eigen.allocated (fst (apply_stores ws t)).
Proof.
  induction ws as [|[idx [val|]] ws IH]; intros t Hal; simpl; try assumption.
  destruct (Eigen.assign t idx val) as [t'|] eqn:E; [|assumption].
  apply IH. eapply Eigen.assign_allocated; eauto.
Qed.

(** Frame: a cell that no request names reads as before, however the
    run ends. *)
Lemma apply_stores_frame ws idx : forall t,
  ~ In idx (map fst ws) ->
  Eigen.coeff (fst (apply_stores ws t)) idx = Eigen.coeff t idx.
Proof.
  induction ws as [|[i [val|]] ws IH]; intros t Hn; simpl; try reflexivity.
  simpl in Hn.
  destruct (Eigen.assign t i val) as [t'|] eqn:E; [|reflexivity].
  rewrite IH by tauto.
  eapply Eigen.coeff_assign_other; eauto.
Qed.

(** The last request for a cell decides what the cell holds. *)
Lemma apply_stores_last ws1 idx val ws2 t :
  Eigen.allocated t ->
  snd (apply_stores (ws1 ++ (idx, Some val) :: ws2) t) = Normal ->
  ~ In idx (map fst ws2) ->
  Eigen.coeff (fst (apply_stores (ws1 ++ (idx, Some val) :: ws2) t)) idx
    = Some val.
Proof.
  intros Hal Hn Hlast. rewrite apply_stores_app in *.
  pose proof (apply_stores_allocated ws1 t Hal) as Hal1.
  destruct (apply_stores ws1 t) as [t1 [[]|e]]; [|discriminate].
  simpl in *.
  destruct (Eigen.assign t1 idx val) as [t2|] eqn:E; [|discriminate].
  rewrite apply_stores_frame by assumption.
  eapply Eigen.coeff_assign_same; eauto.
Qed.

(** A run completes normally exactly when every request carries a
    value and names a cell in range. *)
Definition servable (dimensions : list Eigen.Index) (w : store_request)
  : Prop :=
  Eigen.checkIndexRange dimensions (fst w) = true /\ is_Some (snd w).

Lemma apply_stores_Normal ws : forall t,
  snd (apply_stores ws t) = Normal <->
  Forall (servable (Eigen.dimensions t)) ws.
Proof.
  induction ws as [|[idx [val|]] ws IH]; intros t; simpl.
  - split; [constructor | reflexivity].
  - unfold Eigen.assign at 1.
    destruct (Eigen.checkIndexRange (Eigen.dimensions t) idx) eqn:Hr.
    + rewrite IH. simpl. split.
      * intros H. constructor; [split; [exact Hr | eauto] | exact H].
      * intros H. inversion H; subst. assumption.
    + simpl. split; [discriminate|].
      intros H. inversion H as [|? ? [Hr' _] _]; subst. simpl in Hr'.
      congruence.
  - split; [discriminate|].
    intros H. inversion H as [|? ? [_ [x Hx]] _]; subst. discriminate.
Qed.

(** Requests that agree serve alike. *)
Lemma node_stores_ext fns1 fns2 time_step node :
  (forall j, (j < dim)%nat ->
     option_map (fun target => target time_step node) (fns1 j) =
     option_map (fun target => target time_step node) (fns2 j)) ->
  node_stores fns1 time_step node = node_stores fns2 time_step node.
Proof.
  intros H. unfold node_stores. apply map_ext_in. intros j Hj.
  apply in_seq in Hj. rewrite H by lia. reflexivity.
Qed.

Lemma node_stores_cells fns time_step node :
  map fst (node_stores fns time_step node) = node_cells node.
Proof.
  unfold node_stores, node_cells. rewrite map_map. reflexivity.
Qed.

(** A cell of a node determines the node's coordinates. *)
Lemma node_cells_Point node c j :
  In (c ++ [j]) (node_cells node) -> c = Point node.
Proof.
  unfold node_cells. rewrite in_map_iff. intros (j' & E & _).
  apply app_inj_tail in E as [E _]. congruence.
Qed.

Lemma in_node_cells node j :
  (j < dim)%nat -> In (Point node ++ [Z.of_nat j]) (node_cells node).
Proof.
  intros Hj. unfold node_cells. apply in_map_iff. exists j.
  split; [reflexivity|]. apply in_seq. lia.
Qed.

(** The cells named by the requests of a list of nodes. *)
Lemma in_flat_map_node_stores fns time_step nodes c j :
  In (c ++ [j]) (map fst (flat_map (node_stores fns time_step) nodes)) ->
  In c (map Point nodes).
Proof.
  induction nodes as [|p nodes IH]; simpl; [tauto|].
  rewrite map_app, in_app_iff, node_stores_cells.
  intros [Hp|Hn]; [left; symmetry; eapply node_cells_Point; eauto | right; auto].
Qed.

(** Requests are consistent when those that name the same cell carry the
    same value. *)
Definition consistent (ws : list store_request) : Prop :=
  forall w1 w2, In w1 ws -> In w2 ws -> fst w1 = fst w2 -> snd w1 = snd w2.

Lemma consistent_cons w ws : consistent (w :: ws) -> consistent ws.
Proof. intros H w1 w2 H1 H2. apply H; now right. Qed.

Lemma consistent_Permutation ws ws' :
  Permutation ws ws' -> consistent ws -> consistent ws'.
Proof.
  intros HP H w1 w2 H1 H2. apply Permutation_sym in HP.
  apply H; [exact (Permutation_in _ HP H1) | exact (Permutation_in _ HP H2)].
Qed.

(** Two adjacent servable requests can be served in either order. *)
Lemma apply_stores_swap w1 w2 ws t :
  servable (Eigen.dimensions t) w1 -> servable (Eigen.dimensions t) w2 ->
  (fst w1 = fst w2 -> snd w1 = snd w2) ->
  apply_stores (w1 :: w2 :: ws) t = apply_stores (w2 :: w1 :: ws) t.
Proof.
  destruct w1 as [i a], w2 as [k b]. unfold servable. simpl.
  intros [Hi [a' ->]] [Hk [b' ->]] Hsame. simpl.
  unfold Eigen.assign. rewrite Hi, Hk. simpl. rewrite Hi, Hk.
  f_equal. f_equal.
  destruct (List.list_eq_dec Z.eq_dec i k) as [->|Hne].
  - specialize (Hsame eq_refl). injection Hsame as ->. reflexivity.
  - apply list_insert_insert_ne. intros E. apply Hne. symmetry.
    apply (Eigen.IndexOfColMajor_inj (Eigen.dimensions t)); auto.
    pose proof (Eigen.IndexOfColMajor_bounds _ _ Hi).
    pose proof (Eigen.IndexOfColMajor_bounds _ _ Hk). lia.
Qed.

(** Servable, consistent requests can be served in any order: the
    tensor they leave is the same. *)
Lemma apply_stores_Permutation ws ws' :
  Permutation ws ws' ->
  forall t, Forall (servable (Eigen.dimensions t)) ws -> consistent ws ->
  apply_stores ws t = apply_stores ws' t.
Proof.
  induction 1 as [|w ws ws' HP IH|w1 w2 ws|ws ws' ws'' HP1 IH1 HP2 IH2];
    intros t Hs Hc.
  - reflexivity.
  - inversion Hs as [|? ? Hw Hws]; subst.
    destruct w as [idx [val|]]; simpl; [|reflexivity].
    destruct (Eigen.assign t idx val) as [t'|] eqn:E; [|reflexivity].
    apply IH; [|eapply consistent_cons; eauto].
    rewrite (Eigen.assign_dimensions _ _ _ _ E). exact Hws.
  - inversion Hs as [|? ? Hw2 Hs']; subst.
    inversion Hs' as [|? ? Hw1 _]; subst.
    apply apply_stores_swap; auto.
    apply Hc; simpl; auto.
  - rewrite IH1 by assumption. apply IH2.
    + eapply Permutation_Forall; eauto.
    + eapply consistent_Permutation; eauto.
Qed.

End Stores.
End Policy.

Import Policy.

(* ===================================================================== *)
(** ** [VelocityInitializer]: the sequential policy *)
(* ===================================================================== *)

Module VelocityInitializer.
Section VelocityInitializer.
Context {L : Lattice}.

(** The two loops of [update_nodes], over the frame of the call. *)
Definition update_loops (st : Statics) (time_step : double) : M Frame unit :=
  let inlet_size := length (inlet_nodes st) in
  let outlet_size := length (outlet_nodes st) in
  (for_range inlet_size (fun i =>
     match inlet_nodes st !! i with
     | Some node => update_node (inlet_update_function st) time_step node
     | None => skip
     end) ;;
   for_range outlet_size (fun i =>
     match outlet_nodes st !! i with
     | Some node => update_node (outlet_update_function st) time_step node
     | None => skip
     end))%cmd.

(** [update_nodes(time_step, velocity_tensor, density_tensor)]: the
    velocity tensor is the caller's object, the density tensor a copy
    that the body never uses. *)
Definition update_nodes (time_step : double) (s : State)
  : State * result unit :=
  let density_tensor := density s in
  let (fr, r) := update_loops (policy s) time_step
                   (mkFrame indeterminate (velocity s)) in
  (mkState (policy s) (velocity_tensor fr) (density s), r).

(** All requests of one call, in program order: the inlet nodes in
    vector order, then the outlet nodes. *)
Definition all_stores (st : Statics) (time_step : double)
  : list store_request :=
  flat_map (node_stores (inlet_update_function st) time_step) (inlet_nodes st)
  ++ flat_map (node_stores (outlet_update_function st) time_step)
       (outlet_nodes st).

Lemma update_loops_stores st time_step :
  performs (update_loops st time_step) (all_stores st time_step).
Proof.
  unfold update_loops, all_stores. cbn zeta.
  apply performs_bind; intros fr; rewrite for_range_lookup;
    apply performs_for_each; intros node _; apply update_node_stores.
Qed.

Lemma update_nodes_stores time_step s :
  update_nodes time_step s =
  (mkState (policy s)
     (fst (apply_stores (all_stores (policy s) time_step) (velocity s)))
     (density s),
   snd (apply_stores (all_stores (policy s) time_step) (velocity s))).
Proof.
  unfold update_nodes. cbn zeta.
  pose proof (update_loops_stores (policy s) time_step
                (mkFrame indeterminate (velocity s))) as H.
  destruct (update_loops (policy s) time_step _) as [fr r].
  simpl in H. rewrite <- H. reflexivity.
Qed.

End VelocityInitializer.
End VelocityInitializer.

(* ===================================================================== *)
(** ** [OpenACCVelocityInitializer] *)
(* ===================================================================== *)

Module OpenACCVelocityInitializer.
Section OpenACCVelocityInitializer.
Context {L : Lattice}.

(** Both directives [#pragma acc parallel loop] are commented out in the
    source: what runs is the text of the sequential loops. *)
Definition update_loops (st : Statics) (time_step : double) : M Frame unit :=
  let inlet_size := length (inlet_nodes st) in
  let outlet_size := length (outlet_nodes st) in
  (for_range inlet_size (fun i =>
     match inlet_nodes st !! i with
     | Some node => update_node (inlet_update_function st) time_step node
     | None => skip
     end) ;;
   for_range outlet_size (fun i =>
     match outlet_nodes st !! i with
     | Some node => update_node (outlet_update_function st) time_step node
     | None => skip
     end))%cmd.

Definition update_nodes (time_step : double) (s : State)
  : State * result unit :=
  let density_tensor := density s in
  let (fr, r) := update_loops (policy s) time_step
                   (mkFrame indeterminate (velocity s)) in
  (mkState (policy s) (velocity_tensor fr) (density s), r).

End OpenACCVelocityInitializer.
End OpenACCVelocityInitializer.

(* ===================================================================== *)
(** ** Parallel loops: interleavings *)
(* ===================================================================== *)

Module Schedule.

(** [interleaving threads sched]: [sched] runs every step of every
    thread once, each thread's steps in its own program order. *)
Inductive interleaving {A : Type} : list (list A) -> list A -> Prop :=
| interleaving_done threads :
    Forall (fun th => th = []) threads -> interleaving threads []
| interleaving_step before a th after sched :
    interleaving (before ++ th :: after) sched ->
    interleaving (before ++ (a :: th) :: after) (a :: sched).

Lemma concat_all_nil {A} (threads : list (list A)) :
  Forall (fun th => th = []) threads -> concat threads = [].
Proof. induction 1 as [|? ? -> _ IH]; simpl; auto. Qed.

(** Without threads nothing runs. *)
Lemma interleaving_no_threads {A} (sched : list A) :
  interleaving [] sched -> sched = [].
Proof.
  inversion 1 as [|before a th after sched' _ E]; [reflexivity|].
  destruct before; discriminate E.
Qed.

(** A schedule is a rearrangement of all the steps. *)
Lemma interleaving_Permutation {A} (threads : list (list A)) sched :
  interleaving threads sched -> Permutation (concat threads) sched.
Proof.
  induction 1 as [threads Hnil|before a th after sched _ IH].
  - rewrite concat_all_nil by assumption. constructor.
  - rewrite concat_app in *. simpl in *.
    rewrite <- IH. symmetry. apply Permutation_middle.
Qed.

(** Running the threads one after the other is a schedule. *)
Lemma interleaving_concat {A} (threads : list (list A)) :
  interleaving threads (concat threads).
Proof.
  assert (G : forall (done : list (list A)) threads,
             Forall (fun th => th = []) done ->
             interleaving (done ++ threads) (concat threads)).
  { clear threads. intros done threads. revert done.
    induction threads as [|th threads IH]; intros done Hd.
    - rewrite app_nil_r. now constructor.
    - induction th as [|a th IHth]; simpl.
      + replace (done ++ [] :: threads) with ((done ++ [[]]) ++ threads)
          by now rewrite <- app_assoc.
        apply IH. apply Forall_app. split; [exact Hd | repeat constructor].
      + apply interleaving_step. exact IHth. }
  apply (G [] threads). constructor.
Qed.

End Schedule.

Import Schedule.

(* ===================================================================== *)
(** ** [OMPVelocityInitializer] *)
(* ===================================================================== *)

Module OMPVelocityInitializer.
Section OMPVelocityInitializer.
Context {L : Lattice}.

(** [#pragma omp parallel for private(coordinates)]: every thread works
    on an index array of its own, so a pass of the loop body touches
    shared memory only through its stores, and these are
    [node_stores] whatever the private array held
    ([update_node_stores]). A run of the loop serves the stores of all
    passes in some interleaving; the loop ends when all passes have. *)
Definition parallel_for (fns : array update_function) (time_step : double)
    (nodes : list BoundaryPoint) (t t' : Eigen.Tensor) (r : result unit)
  : Prop :=
  exists sched,
    interleaving (map (node_stores fns time_step) nodes) sched /\
    apply_stores sched t = (t', r).

(** The inlet loop, then the outlet loop. The call returns when both
    loops have completed; an exception raised in a pass of either loop
    (an empty update function, a failed range assertion) is caught
    nowhere inside the parallel region, and the program terminates. *)
Definition update_nodes (time_step : double) (s : State) (o : outcome State)
  : Prop :=
  exists t1 r1,
    parallel_for (inlet_update_function (policy s)) time_step
      (inlet_nodes (policy s)) (velocity s) t1 r1 /\
    match r1 with
    | Return _ =>
        exists t2 r2,
          parallel_for (outlet_update_function (policy s)) time_step
            (outlet_nodes (policy s)) t1 t2 r2 /\
          o = match r2 with
              | Return _ => Returns (mkState (policy s) t2 (density s))
              | Throw _ => Terminates
              end
    | Throw _ => o = Terminates
    end.

End OMPVelocityInitializer.
End OMPVelocityInitializer.

(* ===================================================================== *)
(** ** [STDExecVelocityInitializer] *)
(* ===================================================================== *)

Module STDExecVelocityInitializer.
Section STDExecVelocityInitializer.
Context {L : Lattice}.

(** The function object given to
    [std::for_each(std::execution::par, ...)] has the text of the
    sequential loop body, and captures by reference ([[&]]) both
    [velocity_tensor] and the index array [coordinates], which is
    declared outside it: all element accesses write and read one index
    array. Its steps on that shared frame, in program order: *)
Definition node_steps (fns : array update_function) (time_step : double)
    (node : BoundaryPoint) : list (M Frame unit) :=
  map (fun k => set_coordinate k (coords node k)) (seq 0 dim) ++
  flat_map (fun j =>
      [ set_coordinate dim (Z.of_nat j);
        (val <- call (fns j) time_step node ;; store val)%cmd ])
    (seq 0 dim).

Definition run_steps (steps : list (M Frame unit)) : M Frame unit :=
  for_each steps (fun step => step).

(** One parallel [for_each]: the element accesses may be interleaved. *)
Definition for_each_par (fns : array update_function) (time_step : double)
    (nodes : list BoundaryPoint) (fr fr' : Frame) (r : result unit) : Prop :=
  exists sched,
    interleaving (map (node_steps fns time_step) nodes) sched /\
    run_steps sched fr = (fr', r).

(** The inlet [for_each], then the outlet one. The call returns when
    both have completed; an exception that leaves the function object
    during a parallel algorithm makes the algorithm call
    [std::terminate]. *)
Definition update_nodes (time_step : double) (s : State) (o : outcome State)
  : Prop :=
  exists fr1 r1,
    for_each_par (inlet_update_function (policy s)) time_step
      (inlet_nodes (policy s)) (mkFrame indeterminate (velocity s)) fr1 r1 /\
    match r1 with
    | Return _ =>
        exists fr2 r2,
          for_each_par (outlet_update_function (policy s)) time_step
            (outlet_nodes (policy s)) fr1 fr2 r2 /\
          o = match r2 with
              | Return _ =>
                  Returns (mkState (policy s) (velocity_tensor fr2) (density s))
              | Throw _ => Terminates
              end
    | Throw _ => o = Terminates
    end.

(** The steps of one element access, run without interruption, are the
    loop body. *)
Lemma run_node_steps fns time_step node fr :
  run_steps (node_steps fns time_step node) fr =
  update_node fns time_step node fr.
Proof.
  unfold run_steps, node_steps, update_node, for_range.
  rewrite for_each_app. apply bind_ext; [apply for_each_map|].
  intros _. generalize (seq 0 dim) as l.
  induction l as [|j l IH]; intros fr1; [reflexivity|].
  cbn [flat_map app for_each]. rewrite bind_assoc.
  apply bind_ext; [reflexivity|]. intros _ fr2.
  apply bind_ext; [reflexivity|]. intros _ fr3. apply IH.
Qed.

End STDExecVelocityInitializer.
End STDExecVelocityInitializer.


(* ===================================================================== *)
(** ** A two-dimensional lattice for concrete runs *)
(* ===================================================================== *)

Module Lid2D.

(** Modelled from the spec: [BoundaryPoint<2>], whose declaration
    ([utils/aliases.hpp]) is not among the sources, as the spec describes
    it: "an integer coordinate tuple of length = dimensionality". *)
Record BoundaryPoint2 : Type := mkPoint { x : Eigen.Index; y : Eigen.Index }.

Definition coords2 (p : BoundaryPoint2) : array Eigen.Index :=
  fun k => match k with 0%nat => x p | 1%nat => y p | _ => 0 end.

#[export] Instance lattice : Lattice :=
  {| dim := 2; BoundaryPoint := BoundaryPoint2; coords := coords2 |}.

(** The binary64 value nearest to 0.2. *)
Definition one_fifth : double := 0x1.999999999999ap-3%float.

(** A velocity field over a 4 x 3 grid (two components per node) with 1
    in every cell, and a density field over the same grid. *)
Definition uniform : Eigen.Tensor :=
  Eigen.mkTensor [4; 3; 2] (repeat 1%float 24).

Definition unit_density : Eigen.Tensor :=
  Eigen.mkTensor [4; 3] (repeat 1%float 12).

(** Update functions returning the constant velocity (0.2, 0.0). *)
Definition constant_velocity : array update_function :=
  fun j => match j with
           | 0%nat => Some (fun _ _ => one_fifth)
           | _ => Some (fun _ _ => 0%float)
           end.

(** Another constant velocity, (0.5, 0.25), to tell outlets from inlets. *)
Definition outflow_velocity : array update_function :=
  fun j => match j with
           | 0%nat => Some (fun _ _ => 0.5%float)
           | _ => Some (fun _ _ => 0.25%float)
           end.

(** A default-constructed array of [std::function]: every slot empty. *)
Definition unset : array update_function := fun _ => None.

(** The static members before any attach call: empty vectors, empty
    functions. *)
Definition fresh : Statics := mkStatics [] [] unset unset.

Definition node_a : BoundaryPoint2 := mkPoint 0 1.
Definition node_b : BoundaryPoint2 := mkPoint 0 2.

(** Two inlet points, no outlet, constant inlet velocity; the outlet
    functions are left empty, as in [LidWithOMPPSobstacle.cpp]. *)
Definition two_inlets : State :=
  attach_update_functions constant_velocity unset
    (attach_nodes [node_a; node_b] []
       (mkState fresh uniform unit_density)).

(** An inlet velocity that depends on the point, as the update functions
    of [LidWithOMPPSobstacle.cpp] do: 0.2 on the column [x = 0], 0.5
    elsewhere, for the first component. *)
Definition lid_velocity : array update_function :=
  fun j => match j with
           | 0%nat => Some (fun _ p => if x p =? 0 then one_fifth else 0.5%float)
           | _ => Some (fun _ _ => 0%float)
           end.

Definition two_inlets_lid : State :=
  attach_update_functions lid_velocity unset two_inlets.

(** The same coordinate registered as inlet and as outlet. *)
Definition overlapping : State :=
  attach_update_functions constant_velocity outflow_velocity
    (attach_nodes [node_a] [node_a]
       (mkState fresh uniform unit_density)).

(** The same coordinate registered as inlet and as outlet, with the
    outlet functions left empty (as [Outlets] is in
    [LidWithOMPPSobstacle.cpp]), and with the inlet functions left
    empty. *)
Definition overlapping_outlet_unset : State :=
  attach_update_functions constant_velocity unset overlapping.

Definition overlapping_inlet_unset : State :=
  attach_update_functions unset outflow_velocity overlapping.

(** A schedule of the parallel [for_each] over [node_a; node_b]: the
    access to [node_a] copies its coordinates, then the access to
    [node_b] copies its own into the same array, then each access runs
    its second loop. *)
Definition racy_schedule : list (M Frame unit) :=
  let access_a :=
    STDExecVelocityInitializer.node_steps constant_velocity 0%float node_a in
  let access_b :=
    STDExecVelocityInitializer.node_steps constant_velocity 0%float node_b in
  firstn 2 access_a ++ firstn 2 access_b ++
  skipn 2 access_a ++ skipn 2 access_b.

(** The field that [racy_schedule] leaves. *)
Definition racy_field : Eigen.Tensor :=
  velocity_tensor
    (fst (STDExecVelocityInitializer.run_steps racy_schedule
            (mkFrame indeterminate uniform))).

End Lid2D.

(* ===================================================================== *)
(** ** Properties of the sequential [update_nodes] *)
(* ===================================================================== *)

Import VelocityInitializer.

Section UpdateNodes.
Context {L : Lattice}.

(** Every call of an update function finds a target, and every store
    finds its cell inside the tensor. *)
Definition callable (fns : array update_function) (nodes : list BoundaryPoint)
    (dimensions : list Eigen.Index) : Prop :=
  forall node j, In node nodes -> (j < dim)%nat ->
    is_Some (fns j) /\
    Eigen.checkIndexRange dimensions (Point node ++ [Z.of_nat j]) = true.

Definition ready (s : State) : Prop :=
  callable (inlet_update_function (policy s)) (inlet_nodes (policy s))
    (Eigen.dimensions (velocity s)) /\
  callable (outlet_update_function (policy s)) (outlet_nodes (policy s))
    (Eigen.dimensions (velocity s)).

Lemma servable_node_stores fns time_step nodes dimensions :
  Forall (servable dimensions) (flat_map (node_stores fns time_step) nodes) <->
  callable fns nodes dimensions.
Proof.
  rewrite List.Forall_forall. unfold callable, servable. split.
  - intros H node j Hn Hj.
    destruct (H (Point node ++ [Z.of_nat j],
                 option_map (fun target => target time_step node) (fns j)))
      as [Hr Hs].
    + apply in_flat_map. exists node. split; [exact Hn|].
      unfold node_stores. apply in_map_iff. exists j. split; [reflexivity|].
      apply in_seq. lia.
    + simpl in *. split; [|exact Hr].
      destruct (fns j); [eauto | destruct Hs; discriminate].
  - intros H w Hw. apply in_flat_map in Hw as (node & Hn & Hw).
    unfold node_stores in Hw. apply in_map_iff in Hw as (j & <- & Hj).
    apply in_seq in Hj. destruct (H node j Hn) as [[target Ht] Hr]; [lia|].
    simpl. rewrite Ht. simpl. eauto.
Qed.

(** [update_nodes] completes normally exactly from the ready states. *)
Lemma update_nodes_Normal time_step s :
  snd (update_nodes time_step s) = Normal <-> ready s.
Proof.
  rewrite update_nodes_stores. simpl. rewrite apply_stores_Normal.
  unfold all_stores, ready. rewrite Forall_app, !servable_node_stores.
  reflexivity.
Qed.

(** Cells away from the registered coordinates are never written. *)
Lemma update_nodes_untouched time_step s c j :
  ~ In c (map Point (inlet_nodes (policy s) ++ outlet_nodes (policy s))) ->
  Eigen.coeff (velocity (fst (update_nodes time_step s))) (c ++ [j]) =
  Eigen.coeff (velocity s) (c ++ [j]).
Proof.
  intros Hc. rewrite update_nodes_stores. simpl.
  apply apply_stores_frame. unfold all_stores.
  rewrite map_app, in_app_iff. rewrite map_app, in_app_iff in Hc.
  intros [H|H]; apply in_flat_map_node_stores in H; tauto.
Qed.

Lemma update_nodes_dimensions time_step s :
  Eigen.dimensions (velocity (fst (update_nodes time_step s))) =
  Eigen.dimensions (velocity s).
Proof. rewrite update_nodes_stores. simpl. apply apply_stores_dimensions. Qed.

(** The request for component [j] of a node, and the fact that the
    node's later requests name other cells. *)
Lemma node_stores_split fns time_step node j target :
  (j < dim)%nat -> fns j = Some target ->
  exists w1 w2,
    node_stores fns time_step node =
      w1 ++ (Point node ++ [Z.of_nat j], Some (target time_step node)) :: w2 /\
    ~ In (Point node ++ [Z.of_nat j]) (map fst w2).
Proof.
  intros Hj Ht. unfold node_stores.
  assert (Es : seq 0 dim = seq 0 j ++ j :: seq (S j) (dim - S j)).
  { replace dim with (j + S (dim - S j))%nat at 1 by lia.
    rewrite List.seq_app. reflexivity. }
  rewrite Es, map_app. simpl. rewrite Ht. simpl.
  eexists. eexists. split; [reflexivity|].
  rewrite map_map. simpl. rewrite in_map_iff. intros (j' & E & Hj').
  apply app_inj_tail in E as [_ E]. apply in_seq in Hj'. lia.
Qed.

(** The stores of a node that no later node of its list shadows. *)
Lemma flat_map_node_stores_split fns time_step before node after j target :
  (j < dim)%nat -> fns j = Some target ->
  ~ In (Point node) (map Point after) ->
  exists ws1 ws2,
    flat_map (node_stores fns time_step) (before ++ node :: after) =
      ws1 ++ (Point node ++ [Z.of_nat j], Some (target time_step node)) :: ws2 /\
    ~ In (Point node ++ [Z.of_nat j]) (map fst ws2).
Proof.
  intros Hj Ht Hafter.
  destruct (node_stores_split fns time_step node j target Hj Ht)
    as (w1 & w2 & E & Hw2).
  exists (flat_map (node_stores fns time_step) before ++ w1).
  exists (w2 ++ flat_map (node_stores fns time_step) after). split.
  - rewrite flat_map_app. simpl. rewrite E, <- !app_assoc. reflexivity.
  - rewrite map_app, in_app_iff. intros [H|H]; [tauto|].
    apply in_flat_map_node_stores in H. tauto.
Qed.

End UpdateNodes.

Section LastWrite.
Context {L : Lattice}.

(** The last point of a list with given coordinates. *)
Lemma last_with_coordinates (nodes : list BoundaryPoint) c :
  In c (map Point nodes) ->
  exists before node after,
    nodes = before ++ node :: after /\ Point node = c /\
    ~ In c (map Point after).
Proof.
  induction nodes as [|a nodes IH]; simpl; [tauto|].
  intros Hc.
  destruct (in_dec (List.list_eq_dec Z.eq_dec) c (map Point nodes)) as [Hin|Hout].
  - destruct (IH Hin) as (before & node & after & -> & Hp & Hl).
    exists (a :: before), node, after. auto.
  - destruct Hc as [Ha|Hin]; [|tauto].
    exists [], a, nodes. auto.
Qed.

(** An outlet point that no later outlet point shadows decides its
    cells. *)
Lemma outlet_last_write time_step s before node after j target :
  Eigen.allocated (velocity s) ->
  snd (update_nodes time_step s) = Normal ->
  outlet_nodes (policy s) = before ++ node :: after ->
  ~ In (Point node) (map Point after) ->
  (j < dim)%nat -> outlet_update_function (policy s) j = Some target ->
  Eigen.coeff (velocity (fst (update_nodes time_step s)))
    (Point node ++ [Z.of_nat j]) = Some (target time_step node).
Proof.
  intros Hal Hn Hout Hafter Hj Ht. rewrite update_nodes_stores in *.
  simpl in *. unfold all_stores in *. rewrite Hout in *.
  destruct (flat_map_node_stores_split _ time_step before node after j target
              Hj Ht Hafter) as (ws1 & ws2 & E & Hws2).
  rewrite E, app_assoc in *. now apply apply_stores_last.
Qed.

(** An inlet point that neither a later inlet point nor any outlet point
    shadows decides its cells. *)
Lemma inlet_last_write time_step s before node after j target :
  Eigen.allocated (velocity s) ->
  snd (update_nodes time_step s) = Normal ->
  inlet_nodes (policy s) = before ++ node :: after ->
  ~ In (Point node) (map Point after) ->
  ~ In (Point node) (map Point (outlet_nodes (policy s))) ->
  (j < dim)%nat -> inlet_update_function (policy s) j = Some target ->
  Eigen.coeff (velocity (fst (update_nodes time_step s)))
    (Point node ++ [Z.of_nat j]) = Some (target time_step node).
Proof.
  intros Hal Hn Hin Hafter Hnot Hj Ht. rewrite update_nodes_stores in *.
  simpl in *. unfold all_stores in *. rewrite Hin in *.
  destruct (flat_map_node_stores_split _ time_step before node after j target
              Hj Ht Hafter) as (ws1 & ws2 & E & Hws2).
  rewrite E, <- app_assoc in *. simpl in *.
  apply apply_stores_last; auto.
  rewrite map_app, in_app_iff. intros [H|H]; [tauto|].
  apply in_flat_map_node_stores in H. tauto.
Qed.

(** Two inlet points, no outlet point, constant update functions: both
    points end with the constant values, whether or not their
    coordinates differ. *)
Lemma two_constant_inlets (time_step : double) (s : State)
    (p q : BoundaryPoint) (value : array double) :
  inlet_nodes (policy s) = [p; q] -> outlet_nodes (policy s) = [] ->
  (forall j, (j < dim)%nat ->
     inlet_update_function (policy s) j = Some (fun _ _ => value j)) ->
  Eigen.allocated (velocity s) -> ready s ->
  forall j, (j < dim)%nat ->
    Eigen.coeff (velocity (fst (update_nodes time_step s)))
      (Point p ++ [Z.of_nat j]) = Some (value j) /\
    Eigen.coeff (velocity (fst (update_nodes time_step s)))
      (Point q ++ [Z.of_nat j]) = Some (value j).
Proof.
  intros Hin Hout Hf Hal Hready j Hj.
  assert (Hn : snd (update_nodes time_step s) = Normal)
    by now apply update_nodes_Normal.
  assert (Hq : Eigen.coeff (velocity (fst (update_nodes time_step s)))
                 (Point q ++ [Z.of_nat j]) = Some (value j)).
  { apply (inlet_last_write time_step s [p] q [] j (fun _ _ => value j));
      auto; rewrite ?Hout; simpl; tauto. }
  split; [|exact Hq].
  destruct (List.list_eq_dec Z.eq_dec (Point p) (Point q)) as [E|Hne].
  - rewrite E. exact Hq.
  - apply (inlet_last_write time_step s [] p [q] j (fun _ _ => value j));
      auto; rewrite ?Hout; simpl; intuition.
Qed.

Lemma flat_map_node_stores_ext fns1 fns2 time_step nodes :
  (forall node j, In node nodes -> (j < dim)%nat ->
     option_map (fun target => target time_step node) (fns1 j) =
     option_map (fun target => target time_step node) (fns2 j)) ->
  flat_map (node_stores fns1 time_step) nodes =
  flat_map (node_stores fns2 time_step) nodes.
Proof.
  induction nodes as [|p nodes IH]; intros H; simpl; [reflexivity|].
  rewrite IH by (intros; apply H; simpl; auto).
  f_equal. apply node_stores_ext. intros j Hj. apply H; simpl; auto.
Qed.

End LastWrite.

Section Independence.
Context {L : Lattice}.

Lemma consistent_app (ws1 ws2 : list store_request) :
  consistent ws1 -> consistent ws2 ->
  (forall w1 w2, In w1 ws1 -> In w2 ws2 -> fst w1 <> fst w2) ->
  consistent (ws1 ++ ws2).
Proof.
  intros H1 H2 Hx w1 w2 Hw1 Hw2 E.
  apply in_app_iff in Hw1, Hw2.
  destruct Hw1 as [Hw1|Hw1], Hw2 as [Hw2|Hw2]; auto.
  - destruct (Hx _ _ Hw1 Hw2 E).
  - destruct (Hx _ _ Hw2 Hw1 (eq_sym E)).
Qed.

(** The requests of one node name pairwise different cells. *)
Lemma node_stores_consistent fns time_step node :
  consistent (node_stores fns time_step node).
Proof.
  intros w1 w2 H1 H2 E. unfold node_stores in *.
  apply in_map_iff in H1 as (j1 & <- & _).
  apply in_map_iff in H2 as (j2 & <- & _).
  simpl in E. apply app_inj_tail in E as [_ E].
  apply Nat2Z.inj in E. subst j2. reflexivity.
Qed.

(** Requests of nodes at different coordinates name different cells. *)
Lemma node_stores_apart fns_p fns_q time_step p q w1 w2 :
  Point p <> Point q ->
  In w1 (node_stores fns_p time_step p) ->
  In w2 (node_stores fns_q time_step q) ->
  fst w1 <> fst w2.
Proof.
  intros Hpq H1 H2 E. unfold node_stores in *.
  apply in_map_iff in H1 as (j1 & <- & _).
  apply in_map_iff in H2 as (j2 & <- & _).
  simpl in E. apply app_inj_tail in E as [E _]. auto.
Qed.

(** Without duplicate coordinates, the requests of a node list are
    consistent. *)
Lemma flat_map_node_stores_consistent fns time_step nodes :
  List.NoDup (map Point nodes) ->
  consistent (flat_map (node_stores fns time_step) nodes).
Proof.
  induction nodes as [|p nodes IH]; simpl; intros Hnd.
  - intros w1 w2 [].
  - apply List.NoDup_cons_iff in Hnd as [Hp Hnd].
    apply consistent_app; [apply node_stores_consistent | auto |].
    intros w1 w2 H1 H2 E.
    apply in_flat_map in H2 as (q & Hq & H2).
    revert E. eapply node_stores_apart; eauto.
    intros Epq. apply Hp. rewrite Epq. now apply in_map.
Qed.

End Independence.

(* ===================================================================== *)
(** ** The policies against each other *)
(* ===================================================================== *)

Section Agreement.
Context {L : Lattice}.

(** The accelerator policy has the text of the sequential one. *)
Lemma OpenACC_update_nodes_sequential (time_step : double) (s : State) :
  OpenACCVelocityInitializer.update_nodes time_step s =
  VelocityInitializer.update_nodes time_step s.
Proof. reflexivity. Qed.

(** One OpenMP loop over nodes without duplicate coordinates, all of
    whose requests can be served: every interleaving leaves what the
    sequential loop leaves. *)
Lemma parallel_for_sequential fns time_step nodes t t' r :
  callable fns nodes (Eigen.dimensions t) ->
  List.NoDup (map Point nodes) ->
  OMPVelocityInitializer.parallel_for fns time_step nodes t t' r ->
  (t', r) = apply_stores (flat_map (node_stores fns time_step) nodes) t.
Proof.
  intros Hc Hnd (sched & Hi & Hrun).
  apply interleaving_Permutation in Hi.
  rewrite <- flat_map_concat_map in Hi.
  rewrite <- Hrun. symmetry. apply apply_stores_Permutation.
  - exact Hi.
  - now apply servable_node_stores.
  - now apply flat_map_node_stores_consistent.
Qed.

(** From a ready state whose node lists have no duplicate coordinates,
    every run of the OpenMP policy ends as the sequential policy does:
    it returns, with the state that the sequential call leaves when it
    completes normally. *)
Theorem OMP_update_nodes_sequential (time_step : double) (s : State)
    (o : outcome State) :
  ready s ->
  List.NoDup (map Point (inlet_nodes (policy s))) ->
  List.NoDup (map Point (outlet_nodes (policy s))) ->
  OMPVelocityInitializer.update_nodes time_step s o ->
  snd (VelocityInitializer.update_nodes time_step s) = Normal /\
  o = Returns (fst (VelocityInitializer.update_nodes time_step s)).
Proof.
  intros [Hri Hro] Hni Hno (t1 & r1 & Hin & Hrest).
  split; [apply update_nodes_Normal; split; assumption|].
  apply parallel_for_sequential in Hin; auto.
  assert (Hn1 : r1 = Normal).
  { change r1 with (snd (t1, r1)). rewrite Hin. apply apply_stores_Normal.
    now apply servable_node_stores. }
  assert (Hd1 : Eigen.dimensions t1 = Eigen.dimensions (velocity s)).
  { change t1 with (fst (t1, r1)). rewrite Hin. apply apply_stores_dimensions. }
  subst r1. destruct Hrest as (t2 & r2 & Hout & ->).
  apply parallel_for_sequential in Hout; auto; [|now rewrite Hd1].
  assert (Hn2 : r2 = Normal).
  { change r2 with (snd (t2, r2)). rewrite Hout. apply apply_stores_Normal.
    rewrite Hd1. now apply servable_node_stores. }
  subst r2. cbn. f_equal.
  rewrite update_nodes_stores. unfold all_stores.
  rewrite apply_stores_app, <- Hin. cbn. rewrite <- Hout. reflexivity.
Qed.

(** What the caller of a parallel policy gets where the sequential
    policy ends with [sr]: the state if it completed normally; where it
    threw, the parallel policy raises the exception inside its parallel
    region, and the program terminates. *)
Definition in_parallel_region (sr : State * result unit) : outcome State :=
  match snd sr with
  | Return _ => Returns (fst sr)
  | Throw _ => Terminates
  end.

(** The sequential run is one of the runs of the OpenMP policy. *)
Lemma OMP_update_nodes_admits_sequential (time_step : double) (s : State) :
  OMPVelocityInitializer.update_nodes time_step s
    (in_parallel_region (VelocityInitializer.update_nodes time_step s)).
Proof.
  rewrite update_nodes_stores. unfold all_stores, in_parallel_region. simpl.
  rewrite apply_stores_app.
  set (IN := flat_map (node_stores (inlet_update_function (policy s)) time_step)
               (inlet_nodes (policy s))).
  exists (fst (apply_stores IN (velocity s))), (snd (apply_stores IN (velocity s))).
  split.
  - exists IN. split; [|apply surjective_pairing].
    unfold IN. rewrite flat_map_concat_map. apply interleaving_concat.
  - destruct (apply_stores IN (velocity s)) as [t1 [[]|e]]; simpl; [|auto].
    set (OUT := flat_map _ (outlet_nodes (policy s))).
    exists (fst (apply_stores OUT t1)), (snd (apply_stores OUT t1)).
    split; [|destruct (snd (apply_stores OUT t1)) as [[]|e]; reflexivity].
    exists OUT. split; [|apply surjective_pairing].
    unfold OUT. rewrite flat_map_concat_map. apply interleaving_concat.
Qed.

Lemma run_steps_concat {A} (f : A -> list (M Frame unit)) (l : list A) fr :
  STDExecVelocityInitializer.run_steps (concat (map f l)) fr =
  for_each l (fun x => STDExecVelocityInitializer.run_steps (f x)) fr.
Proof.
  unfold STDExecVelocityInitializer.run_steps. revert fr.
  induction l as [|x l IH]; intros fr; [reflexivity|].
  simpl. rewrite for_each_app. apply bind_ext; [reflexivity|].
  intros _ fr'. apply IH.
Qed.

(** With element accesses that do not overlap in time, the parallel
    [for_each] is the sequential loop. *)
Lemma for_each_par_admits_sequential fns time_step nodes fr :
  STDExecVelocityInitializer.for_each_par fns time_step nodes fr
    (fst (for_each nodes (update_node fns time_step) fr))
    (snd (for_each nodes (update_node fns time_step) fr)).
Proof.
  exists (concat (map (STDExecVelocityInitializer.node_steps fns time_step) nodes)).
  split; [apply interleaving_concat|].
  rewrite run_steps_concat.
  rewrite (for_each_ext nodes _ (update_node fns time_step)).
  - apply surjective_pairing.
  - intros node fr' _. apply STDExecVelocityInitializer.run_node_steps.
Qed.

(** The schedule in which the element accesses do not overlap is a run
    of the parallel-algorithm policy. *)
Lemma STDExec_update_nodes_in_turn (time_step : double) (s : State) :
  STDExecVelocityInitializer.update_nodes time_step s
    (in_parallel_region (VelocityInitializer.update_nodes time_step s)).
Proof.
  unfold in_parallel_region, VelocityInitializer.update_nodes, update_loops.
  cbn zeta.
  set (fr0 := mkFrame indeterminate (velocity s)).
  set (fi := inlet_update_function (policy s)).
  set (fo := outlet_update_function (policy s)).
  assert (E : forall fr,
    ((for_range (length (inlet_nodes (policy s)))
        (fun i => match inlet_nodes (policy s) !! i with
                  | Some node => update_node fi time_step node
                  | None => skip
                  end) ;;
      for_range (length (outlet_nodes (policy s)))
        (fun i => match outlet_nodes (policy s) !! i with
                  | Some node => update_node fo time_step node
                  | None => skip
                  end))%cmd fr) =
    ((for_each (inlet_nodes (policy s)) (update_node fi time_step) ;;
      for_each (outlet_nodes (policy s)) (update_node fo time_step))%cmd fr)).
  { intros fr. apply bind_ext; [apply for_range_lookup|].
    intros _ fr'. apply for_range_lookup. }
  rewrite E. unfold bind.
  pose proof (for_each_par_admits_sequential fi time_step
                (inlet_nodes (policy s)) fr0) as Hin.
  destruct (for_each (inlet_nodes (policy s)) (update_node fi time_step) fr0)
    as [fr1 [[]|e]] eqn:E1; simpl in Hin.
  - pose proof (for_each_par_admits_sequential fo time_step
                  (outlet_nodes (policy s)) fr1) as Hout.
    destruct (for_each (outlet_nodes (policy s)) (update_node fo time_step) fr1)
      as [fr2 r2] eqn:E2; simpl in Hout. simpl.
    exists fr1, Normal. split; [exact Hin|].
    exists fr2, r2. split; [exact Hout|].
    destruct r2 as [[]|e]; reflexivity.
  - simpl. exists fr1, (Throw e). split; [exact Hin|]. reflexivity.
Qed.

(** From a ready state, the result of the sequential [update_nodes] is
    one of the possible results of the parallel-algorithm policy: when
    the element accesses do not overlap, the shared index array does no
    harm. *)
Theorem STDExec_update_nodes_admits_sequential (time_step : double)
    (s : State) :
  ready s ->
  snd (VelocityInitializer.update_nodes time_step s) = Normal /\
  STDExecVelocityInitializer.update_nodes time_step s
    (Returns (fst (VelocityInitializer.update_nodes time_step s))).
Proof.
  intros Hr. apply (update_nodes_Normal time_step) in Hr.
  split; [exact Hr|].
  pose proof (STDExec_update_nodes_in_turn time_step s) as H.
  unfold in_parallel_region in H. rewrite Hr in H. exact H.
Qed.

End Agreement.

(* ===================================================================== *)
(** ** The claims *)
(* ===================================================================== *)

Import Lid2D.

(** Doubles that a comparison tells apart are different values. *)
Lemma double_neq (a b : double) :
  PrimFloat.eqb a a = true -> PrimFloat.eqb b a = false -> Some a <> Some b.
Proof.
  intros Ha Hb E.
  assert (E' : a = b) by exact (f_equal (fun o => default a o) E).
  rewrite <- E' in Hb. congruence.
Qed.

(** C1 as stated fails: with one coordinate registered both as inlet and
    as outlet, the call completes normally and the inlet point's cells do
    not hold the inlet functions' values. *)
Lemma inlet_cell_overwritten :
  snd (update_nodes 0%float overlapping) = Normal /\
  ~ (forall node j target,
       In node (inlet_nodes (policy overlapping)) -> (j < dim)%nat ->
       inlet_update_function (policy overlapping) j = Some target ->
       Eigen.coeff (velocity (fst (update_nodes 0%float overlapping)))
         (Point node ++ [Z.of_nat j]) = Some (target 0%float node)).
Proof.
  split; [reflexivity|]. intros H.
  specialize (H node_a 0%nat (fun _ _ => one_fifth)).
  vm_compute in H. specialize (H (or_introl eq_refl) (le_S _ _ (le_n _)) eq_refl).
  revert H. apply double_neq; reflexivity.
Qed.

(** C1 (amended): from a ready state with an allocated velocity field,
    [update_nodes] completes normally, and for every registered point and
    every dimension [j] the cell at the point's coordinates and direction
    index [j] holds the [j]-th update function's value at (time, point),
    provided no point processed later has the same coordinates: no later
    point of the same list and, for an inlet point, no outlet point. *)
Theorem update_nodes_stores_values {L : Lattice} (time_step : double) (s : State) :
  Eigen.allocated (velocity s) -> ready s ->
  snd (update_nodes time_step s) = Normal /\
  (forall before node after j target,
     outlet_nodes (policy s) = before ++ node :: after ->
     ~ In (Point node) (map Point after) ->
     (j < dim)%nat -> outlet_update_function (policy s) j = Some target ->
     Eigen.coeff (velocity (fst (update_nodes time_step s)))
       (Point node ++ [Z.of_nat j]) = Some (target time_step node)) /\
  (forall before node after j target,
     inlet_nodes (policy s) = before ++ node :: after ->
     ~ In (Point node) (map Point after) ->
     ~ In (Point node) (map Point (outlet_nodes (policy s))) ->
     (j < dim)%nat -> inlet_update_function (policy s) j = Some target ->
     Eigen.coeff (velocity (fst (update_nodes time_step s)))
       (Point node ++ [Z.of_nat j]) = Some (target time_step node)).
Proof.
  intros Hal Hready.
  assert (Hn : snd (update_nodes time_step s) = Normal)
    by now apply update_nodes_Normal.
  split; [exact Hn|]. split.
  - intros. eapply outlet_last_write; eauto.
  - intros. eapply inlet_last_write; eauto.
Qed.

Lemma update_nodes_stores_values_witness :
  Eigen.allocated (velocity two_inlets) /\ ready two_inlets /\
  Eigen.coeff (velocity (fst (update_nodes 0%float two_inlets))) [0; 1; 0]
    = Some one_fifth.
Proof.
  assert (Hal : Eigen.allocated (velocity two_inlets)) by reflexivity.
  assert (Hr : ready two_inlets)
    by (apply (update_nodes_Normal 0%float); reflexivity).
  split; [exact Hal|]. split; [exact Hr|].
  destruct (update_nodes_stores_values 0%float two_inlets Hal Hr)
    as (_ & _ & Hin).
  apply (Hin [] node_a [node_b] 0%nat (fun _ _ => one_fifth)).
  - reflexivity.
  - simpl. intros [H|[]]. discriminate H.
  - simpl. tauto.
  - simpl. lia.
  - reflexivity.
Defined.

(** C2 fails for [STDExecVelocityInitializer]: its function object
    shares the index array between element accesses. With the two inlet
    points (0,1) and (0,2) there is a run that completes normally and
    leaves the cells of (0,1) unwritten, where the sequential policy
    writes (0.2, 0.0) there. *)
Theorem STDExec_shared_coordinates_race :
  STDExecVelocityInitializer.update_nodes 0%float two_inlets
    (Returns (mkState (policy two_inlets) racy_field (density two_inlets))) /\
  racy_field <> velocity (fst (VelocityInitializer.update_nodes 0%float two_inlets)) /\
  Eigen.coeff racy_field [0; 1; 0] = Some 1%float /\
  Eigen.coeff (velocity (fst (VelocityInitializer.update_nodes 0%float two_inlets)))
    [0; 1; 0] = Some one_fifth.
Proof.
  split; [|split; [|split; reflexivity]].
  - exists (fst (STDExecVelocityInitializer.run_steps racy_schedule
                   (mkFrame indeterminate uniform))), Normal.
    split.
    + exists racy_schedule. split.
      * vm_compute.
        apply (interleaving_step [] _ _ [_]).
        apply (interleaving_step [] _ _ [_]).
        apply (interleaving_step [_] _ _ []).
        apply (interleaving_step [_] _ _ []).
        do 4 apply (interleaving_step [] _ _ [_]).
        do 4 apply (interleaving_step [_] _ _ []).
        apply interleaving_done. repeat constructor.
      * rewrite (surjective_pairing (STDExecVelocityInitializer.run_steps _ _)).
        f_equal.
    + exists (fst (STDExecVelocityInitializer.run_steps racy_schedule
                     (mkFrame indeterminate uniform))), Normal.
      split; [|reflexivity].
      exists []. split; [|reflexivity].
      apply interleaving_done. constructor.
  - intros E.
    apply (f_equal (fun t => Eigen.coeff t [0; 1; 0])) in E.
    vm_compute in E. revert E. apply double_neq; reflexivity.
Qed.

(** C3: [update_nodes] leaves every cell whose node coordinates are not
    those of a registered inlet or outlet point as it was (and the shape
    of the field too), however the call ends. In particular, with two
    inlet points, no outlet point and constant update functions, a call
    from a ready state leaves the constants in the cells of the two
    points; at time 0 with the points (0,1) and (0,2) and the constants
    (0.2, 0.0), the field that held 1 everywhere holds (0.2, 0.0) at the
    two points and 1 in every other cell. *)
Theorem update_nodes_writes_only_registered :
  (forall (L : Lattice) (time_step : double) (s : State)
          (c : list Eigen.Index) (j : Eigen.Index),
     ~ In c (map Point (inlet_nodes (policy s) ++ outlet_nodes (policy s))) ->
     Eigen.coeff (velocity (fst (update_nodes time_step s))) (c ++ [j]) =
     Eigen.coeff (velocity s) (c ++ [j])) /\
  (forall (L : Lattice) (time_step : double) (s : State),
     Eigen.dimensions (velocity (fst (update_nodes time_step s))) =
     Eigen.dimensions (velocity s)) /\
  (forall (L : Lattice) (time_step : double) (s : State)
          (p q : BoundaryPoint) (value : array double),
     inlet_nodes (policy s) = [p; q] -> outlet_nodes (policy s) = [] ->
     (forall j, (j < dim)%nat ->
        inlet_update_function (policy s) j = Some (fun _ _ => value j)) ->
     Eigen.allocated (velocity s) -> ready s ->
     forall j, (j < dim)%nat ->
       Eigen.coeff (velocity (fst (update_nodes time_step s)))
         (Point p ++ [Z.of_nat j]) = Some (value j) /\
       Eigen.coeff (velocity (fst (update_nodes time_step s)))
         (Point q ++ [Z.of_nat j]) = Some (value j)) /\
  update_nodes 0%float two_inlets =
    (mkState (policy two_inlets)
       (Eigen.mkTensor [4; 3; 2]
          [ 1; 1; 1; 1;   one_fifth; 1; 1; 1;   one_fifth; 1; 1; 1;
            1; 1; 1; 1;   0; 1; 1; 1;           0; 1; 1; 1 ]%float)
       (density two_inlets),
     Normal).
Proof.
  split; [|split; [|split]].
  - intros L time_step s c j H. now apply update_nodes_untouched.
  - intros L time_step s. apply update_nodes_dimensions.
  - intros L time_step s p q value. apply two_constant_inlets.
  - reflexivity.
Qed.

Lemma update_nodes_writes_only_registered_witness :
  ~ In [3; 0] (map Point (inlet_nodes (policy two_inlets) ++
                          outlet_nodes (policy two_inlets))) /\
  Eigen.coeff (velocity (fst (update_nodes 0%float two_inlets))) ([3; 0] ++ [1])
    = Eigen.coeff (velocity two_inlets) ([3; 0] ++ [1]).
Proof.
  assert (H : ~ In [3; 0] (map Point (inlet_nodes (policy two_inlets) ++
                                      outlet_nodes (policy two_inlets)))).
  { simpl. intros [H|[H|[]]]; discriminate H. }
  split; [exact H|].
  exact (proj1 update_nodes_writes_only_registered lattice 0%float two_inlets
           [3; 0] 1 H).
Defined.

(** C4: [attach_nodes] replaces both registered lists, and a following
    [update_nodes] leaves every cell whose node coordinates are not in
    the new lists as it was, whether or not they were in the old ones. *)
Theorem attach_nodes_replaces {L : Lattice} (time_step : double) (s : State)
    (inlet_nodes_ outlet_nodes_ : list BoundaryPoint)
    (c : list Eigen.Index) (j : Eigen.Index) :
  ~ In c (map Point (inlet_nodes_ ++ outlet_nodes_)) ->
  inlet_nodes (policy (attach_nodes inlet_nodes_ outlet_nodes_ s))
    = inlet_nodes_ /\
  outlet_nodes (policy (attach_nodes inlet_nodes_ outlet_nodes_ s))
    = outlet_nodes_ /\
  Eigen.coeff
    (velocity (fst (update_nodes time_step
                      (attach_nodes inlet_nodes_ outlet_nodes_ s))))
    (c ++ [j])
  = Eigen.coeff (velocity s) (c ++ [j]).
Proof.
  intros Hc. split; [reflexivity|]. split; [reflexivity|].
  rewrite update_nodes_untouched; [reflexivity | exact Hc].
Qed.

Lemma attach_nodes_replaces_witness :
  In (Point node_b) (map Point (inlet_nodes (policy two_inlets))) /\
  ~ In (Point node_b) (map Point ([node_a] ++ [])) /\
  Eigen.coeff
    (velocity (fst (update_nodes 0%float (attach_nodes [node_a] [] two_inlets))))
    (Point node_b ++ [0])
  = Eigen.coeff (velocity two_inlets) (Point node_b ++ [0]).
Proof.
  assert (H : ~ In (Point node_b) (map Point ([node_a] ++ []))).
  { simpl. intros [H|[]]. discriminate H. }
  split; [simpl; tauto|]. split; [exact H|].
  exact (proj2 (proj2 (attach_nodes_replaces 0%float two_inlets [node_a] []
                         (Point node_b) 0 H))).
Defined.

(** C5: with no inlet and no outlet node registered, [update_nodes]
    completes normally and changes nothing, whatever the update-function
    arrays hold, empty functions included: no function is called. This
    holds for the four policies; each of the parallel ones has exactly
    one outcome, to return with the state unchanged. *)
Theorem update_nodes_without_nodes {L : Lattice} (time_step : double)
    (inlet_update_function_ outlet_update_function_ : array update_function)
    (velocity_ density_ : Eigen.Tensor) :
  VelocityInitializer.update_nodes time_step
    (unregistered inlet_update_function_ outlet_update_function_
       velocity_ density_)
  = (unregistered inlet_update_function_ outlet_update_function_
       velocity_ density_, Normal) /\
  OpenACCVelocityInitializer.update_nodes time_step
    (unregistered inlet_update_function_ outlet_update_function_
       velocity_ density_)
  = (unregistered inlet_update_function_ outlet_update_function_
       velocity_ density_, Normal) /\
  (forall o,
     OMPVelocityInitializer.update_nodes time_step
       (unregistered inlet_update_function_ outlet_update_function_
          velocity_ density_) o <->
     o = Returns (unregistered inlet_update_function_ outlet_update_function_
                    velocity_ density_)) /\
  (forall o,
     STDExecVelocityInitializer.update_nodes time_step
       (unregistered inlet_update_function_ outlet_update_function_
          velocity_ density_) o <->
     o = Returns (unregistered inlet_update_function_ outlet_update_function_
                    velocity_ density_)).
Proof.
  assert (Hnone : forall A, @interleaving A [] [])
    by (intros A; apply interleaving_done; constructor).
  split; [reflexivity|]. split; [reflexivity|]. split; intros o; split.
  - intros (t1 & r1 & (sched1 & Hi1 & Hrun1) & Hrest). simpl in *.
    apply interleaving_no_threads in Hi1. subst sched1.
    injection Hrun1 as <- <-.
    destruct Hrest as (t2 & r2 & (sched2 & Hi2 & Hrun2) & ->).
    apply interleaving_no_threads in Hi2. subst sched2.
    injection Hrun2 as <- <-. reflexivity.
  - intros ->. exists velocity_, Normal. split.
    + exists []. split; [apply Hnone | reflexivity].
    + exists velocity_, Normal. split; [|reflexivity].
      exists []. split; [apply Hnone | reflexivity].
  - intros (fr1 & r1 & (sched1 & Hi1 & Hrun1) & Hrest). simpl in *.
    apply interleaving_no_threads in Hi1. subst sched1.
    injection Hrun1 as <- <-.
    destruct Hrest as (fr2 & r2 & (sched2 & Hi2 & Hrun2) & ->).
    apply interleaving_no_threads in Hi2. subst sched2.
    injection Hrun2 as <- <-. reflexivity.
  - intros ->. exists (mkFrame indeterminate velocity_), Normal. split.
    + exists []. split; [apply Hnone | reflexivity].
    + exists (mkFrame indeterminate velocity_), Normal. split; [|reflexivity].
      exists []. split; [apply Hnone | reflexivity].
Qed.

(** C6: the cells that the loop body writes for a node are the node's
    coordinates paired with each direction index; for two nodes with
    different coordinates these cells are different index tuples and,
    inside a tensor, different storage cells, and the two passes of the
    loop body can run in either order: the field they leave is the same. *)
Theorem distinct_nodes_disjoint_cells {L : Lattice} (p q : BoundaryPoint) :
  Point p <> Point q ->
  (forall fns time_step,
     performs (update_node fns time_step p) (node_stores fns time_step p) /\
     map fst (node_stores fns time_step p) = node_cells p) /\
  (forall cell, In cell (node_cells p) -> ~ In cell (node_cells q)) /\
  (forall dimensions cell_p cell_q,
     In cell_p (node_cells p) -> In cell_q (node_cells q) ->
     Eigen.checkIndexRange dimensions cell_p = true ->
     Eigen.checkIndexRange dimensions cell_q = true ->
     Eigen.IndexOfColMajor dimensions cell_p <>
     Eigen.IndexOfColMajor dimensions cell_q) /\
  (forall fns_p fns_q time_step fr,
     snd ((update_node fns_p time_step p ;;
           update_node fns_q time_step q)%cmd fr) = Normal ->
     snd ((update_node fns_q time_step q ;;
           update_node fns_p time_step p)%cmd fr) = Normal /\
     velocity_tensor (fst ((update_node fns_q time_step q ;;
                            update_node fns_p time_step p)%cmd fr)) =
     velocity_tensor (fst ((update_node fns_p time_step p ;;
                            update_node fns_q time_step q)%cmd fr))).
Proof.
  intros Hpq.
  assert (Hcells : forall cell, In cell (node_cells p) -> ~ In cell (node_cells q)).
  { intros cell Hp Hq. unfold node_cells in *.
    apply in_map_iff in Hp as (j1 & <- & _).
    apply in_map_iff in Hq as (j2 & E & _).
    apply app_inj_tail in E as [E _]. auto. }
  split; [|split; [exact Hcells|split]].
  - intros fns time_step.
    split; [apply update_node_stores | apply node_stores_cells].
  - intros dimensions cell_p cell_q Hp Hq Hrp Hrq E.
    apply (Eigen.IndexOfColMajor_inj dimensions) in E; auto.
    subst cell_q. exact (Hcells _ Hp Hq).
  - intros fns_p fns_q time_step fr Hn.
    pose proof (performs_bind _ _ _ _
                  (update_node_stores fns_p time_step p)
                  (update_node_stores fns_q time_step q) fr) as Hpq_run.
    pose proof (performs_bind _ _ _ _
                  (update_node_stores fns_q time_step q)
                  (update_node_stores fns_p time_step p) fr) as Hqp_run.
    assert (Hserv : Forall (servable (Eigen.dimensions (velocity_tensor fr)))
                      (node_stores fns_p time_step p ++ node_stores fns_q time_step q)).
    { apply apply_stores_Normal. rewrite <- Hpq_run. exact Hn. }
    assert (Hcons : consistent
                      (node_stores fns_p time_step p ++ node_stores fns_q time_step q)).
    { apply consistent_app; try apply node_stores_consistent.
      intros w1 w2. now apply node_stores_apart. }
    pose proof (apply_stores_Permutation _ _
                  (Permutation_app_comm (node_stores fns_p time_step p)
                     (node_stores fns_q time_step q))
                  (velocity_tensor fr) Hserv Hcons) as Hperm.
    rewrite <- Hpq_run, <- Hqp_run in Hperm.
    injection Hperm as Hv Hr. split; congruence.
Qed.

Lemma distinct_nodes_disjoint_cells_witness :
  Point node_a <> Point node_b /\
  ~ In [0; 1; 0] (node_cells node_b) /\
  Eigen.IndexOfColMajor [4; 3; 2] [0; 1; 1] <>
  Eigen.IndexOfColMajor [4; 3; 2] [0; 2; 0].
Proof.
  assert (H : Point node_a <> Point node_b) by (simpl; discriminate).
  destruct (distinct_nodes_disjoint_cells (L:=lattice) node_a node_b H)
    as (_ & Hcells & Hstorage & _).
  split; [exact H|]. split.
  - apply Hcells. simpl. tauto.
  - apply Hstorage; simpl; tauto.
Defined.

(** C7: [update_nodes] leaves the static members of the policy as they
    were; after the attach calls they are exactly what was attached. *)
Theorem update_nodes_keeps_registration {L : Lattice} (time_step : double)
    (s : State) :
  policy (fst (update_nodes time_step s)) = policy s /\
  forall inlet_nodes_ outlet_nodes_ inlet_update_function_
         outlet_update_function_,
    policy (fst (update_nodes time_step
                   (attach_update_functions inlet_update_function_
                      outlet_update_function_
                      (attach_nodes inlet_nodes_ outlet_nodes_ s))))
    = mkStatics inlet_nodes_ outlet_nodes_ inlet_update_function_
        outlet_update_function_.
Proof.
  split; [|intros]; rewrite update_nodes_stores; reflexivity.
Qed.

(** C8: the caller's density field after [update_nodes] is the density
    field before it. *)
Theorem update_nodes_keeps_density {L : Lattice} (time_step : double)
    (s : State) :
  density (fst (update_nodes time_step s)) = density s.
Proof.
  unfold update_nodes. cbn zeta.
  destruct (update_loops (policy s) time_step _) as [fr r]. reflexivity.
Qed.

(** C9 as stated fails: it asks nothing of the update functions. With
    the coordinate (0,1) registered as inlet and as outlet, constant
    inlet functions (0.2, 0.0) and empty outlet functions, the call ends
    with [std::bad_function_call] at the first call of the outlet pass,
    and the cells at (0,1) keep the inlet values. With empty inlet
    functions and the outlet functions (0.5, 0.25), the call ends within
    the inlet pass, and the cells at (0,1) still hold 1, not the outlet
    values. *)
Lemma outlet_pass_not_completed :
  (In [0; 1] (map Point (inlet_nodes (policy overlapping_outlet_unset))) /\
   In [0; 1] (map Point (outlet_nodes (policy overlapping_outlet_unset))) /\
   update_nodes 0%float overlapping_outlet_unset =
     (mkState (policy overlapping_outlet_unset)
        (Eigen.mkTensor [4; 3; 2]
           [ 1; 1; 1; 1;   one_fifth; 1; 1; 1;   1; 1; 1; 1;
             1; 1; 1; 1;   0; 1; 1; 1;           1; 1; 1; 1 ]%float)
        (density overlapping_outlet_unset),
      Throw bad_function_call) /\
   ~ (exists node,
        In node (outlet_nodes (policy overlapping_outlet_unset)) /\
        Point node = [0; 1] /\
        forall j, (j < dim)%nat ->
          exists target,
            outlet_update_function (policy overlapping_outlet_unset) j
              = Some target /\
            Eigen.coeff
              (velocity (fst (update_nodes 0%float overlapping_outlet_unset)))
              ([0; 1] ++ [Z.of_nat j]) = Some (target 0%float node))) /\
  (In [0; 1] (map Point (inlet_nodes (policy overlapping_inlet_unset))) /\
   In [0; 1] (map Point (outlet_nodes (policy overlapping_inlet_unset))) /\
   update_nodes 0%float overlapping_inlet_unset =
     (overlapping_inlet_unset, Throw bad_function_call) /\
   outlet_update_function (policy overlapping_inlet_unset) 0%nat
     = Some (fun _ _ => 0.5%float) /\
   Eigen.coeff (velocity (fst (update_nodes 0%float overlapping_inlet_unset)))
     [0; 1; 0] = Some 1%float /\
   ~ (exists node,
        In node (outlet_nodes (policy overlapping_inlet_unset)) /\
        Point node = [0; 1] /\
        forall j, (j < dim)%nat ->
          exists target,
            outlet_update_function (policy overlapping_inlet_unset) j
              = Some target /\
            Eigen.coeff
              (velocity (fst (update_nodes 0%float overlapping_inlet_unset)))
              ([0; 1] ++ [Z.of_nat j]) = Some (target 0%float node))).
Proof.
  assert (H0 : (0 < dim)%nat) by (simpl; lia).
  split.
  - split; [simpl; tauto|]. split; [simpl; tauto|]. split; [reflexivity|].
    intros (node & _ & _ & H). destruct (H 0%nat H0) as (target & Ht & _).
    discriminate Ht.
  - split; [simpl; tauto|]. split; [simpl; tauto|]. split; [reflexivity|].
    split; [reflexivity|]. split; [reflexivity|].
    intros (node & _ & _ & H). destruct (H 0%nat H0) as (target & Ht & Hv).
    injection Ht as <-. vm_compute in Hv. revert Hv.
    apply double_neq; reflexivity.
Qed.

(** C9 (amended): when a coordinate is registered both as inlet and as
    outlet, then after a call from a ready state (every update function
    that is called is set, every registered point lies inside the
    field) the cells at that coordinate hold the outlet functions'
    values, at the outlet point with that coordinate (the last one in
    the vector). *)
Theorem outlet_overrides_inlet {L : Lattice} (time_step : double) (s : State)
    (c : list Eigen.Index) :
  Eigen.allocated (velocity s) -> ready s ->
  In c (map Point (inlet_nodes (policy s))) ->
  In c (map Point (outlet_nodes (policy s))) ->
  snd (update_nodes time_step s) = Normal /\
  exists before node after,
    outlet_nodes (policy s) = before ++ node :: after /\
    Point node = c /\ ~ In c (map Point after) /\
    forall j, (j < dim)%nat ->
      exists target,
        outlet_update_function (policy s) j = Some target /\
        Eigen.coeff (velocity (fst (update_nodes time_step s)))
          (c ++ [Z.of_nat j]) = Some (target time_step node).
Proof.
  intros Hal Hready _ Hout.
  assert (Hn : snd (update_nodes time_step s) = Normal)
    by now apply update_nodes_Normal.
  split; [exact Hn|].
  destruct (last_with_coordinates _ _ Hout) as (before & node & after & E & Hp & Hl).
  exists before, node, after.
  split; [exact E|]. split; [exact Hp|]. split; [exact Hl|].
  intros j Hj.
  destruct Hready as [_ Hro].
  destruct (Hro node j) as [[target Ht] _]; [rewrite E; apply in_elt | exact Hj |].
  exists target. split; [exact Ht|]. subst c.
  eapply outlet_last_write; eauto.
Qed.

Lemma outlet_overrides_inlet_witness :
  Eigen.allocated (velocity overlapping) /\ ready overlapping /\
  In [0; 1] (map Point (inlet_nodes (policy overlapping))) /\
  In [0; 1] (map Point (outlet_nodes (policy overlapping))) /\
  exists before node after,
    outlet_nodes (policy overlapping) = before ++ node :: after /\
    Point node = [0; 1] /\ ~ In [0; 1] (map Point after) /\
    forall j, (j < dim)%nat ->
      exists target,
        outlet_update_function (policy overlapping) j = Some target /\
        Eigen.coeff (velocity (fst (update_nodes 0%float overlapping)))
          ([0; 1] ++ [Z.of_nat j]) = Some (target 0%float node).
Proof.
  assert (Hal : Eigen.allocated (velocity overlapping)) by reflexivity.
  assert (Hr : ready overlapping)
    by (apply (update_nodes_Normal 0%float); reflexivity).
  assert (Hi : In [0; 1] (map Point (inlet_nodes (policy overlapping))))
    by (simpl; tauto).
  assert (Ho : In [0; 1] (map Point (outlet_nodes (policy overlapping))))
    by (simpl; tauto).
  repeat (split; [assumption|]).
  exact (proj2 (outlet_overrides_inlet 0%float overlapping [0; 1] Hal Hr Hi Ho)).
Defined.

(** C10: two calls at the same time, from states with equal node lists
    and equal velocity fields, whose update functions agree at that time
    on the registered points, leave equal velocity fields and complete
    alike. *)
Theorem update_nodes_deterministic {L : Lattice} (time_step : double)
    (s1 s2 : State) :
  inlet_nodes (policy s1) = inlet_nodes (policy s2) ->
  outlet_nodes (policy s1) = outlet_nodes (policy s2) ->
  velocity s1 = velocity s2 ->
  (forall node j, In node (inlet_nodes (policy s1)) -> (j < dim)%nat ->
     option_map (fun target => target time_step node)
       (inlet_update_function (policy s1) j) =
     option_map (fun target => target time_step node)
       (inlet_update_function (policy s2) j)) ->
  (forall node j, In node (outlet_nodes (policy s1)) -> (j < dim)%nat ->
     option_map (fun target => target time_step node)
       (outlet_update_function (policy s1) j) =
     option_map (fun target => target time_step node)
       (outlet_update_function (policy s2) j)) ->
  velocity (fst (update_nodes time_step s1)) =
  velocity (fst (update_nodes time_step s2)) /\
  snd (update_nodes time_step s1) = snd (update_nodes time_step s2).
Proof.
  intros Hi Ho Hv Hfi Hfo. rewrite !update_nodes_stores. simpl.
  assert (E : all_stores (policy s1) time_step = all_stores (policy s2) time_step).
  { unfold all_stores. rewrite <- Hi, <- Ho.
    f_equal; now apply flat_map_node_stores_ext. }
  rewrite E, Hv. split; reflexivity.
Qed.

Lemma update_nodes_deterministic_witness :
  inlet_update_function (policy two_inlets) <>
  inlet_update_function (policy two_inlets_lid) /\
  (forall node j, In node (inlet_nodes (policy two_inlets)) -> (j < dim)%nat ->
     option_map (fun target => target 0%float node)
       (inlet_update_function (policy two_inlets) j) =
     option_map (fun target => target 0%float node)
       (inlet_update_function (policy two_inlets_lid) j)) /\
  velocity (fst (update_nodes 0%float two_inlets)) =
  velocity (fst (update_nodes 0%float two_inlets_lid)).
Proof.
  assert (Hagree : forall node j,
            In node (inlet_nodes (policy two_inlets)) -> (j < dim)%nat ->
            option_map (fun target => target 0%float node)
              (inlet_update_function (policy two_inlets) j) =
            option_map (fun target => target 0%float node)
              (inlet_update_function (policy two_inlets_lid) j)).
  { intros node j [<-|[<-|[]]] Hj; destruct j as [|[|j]];
      solve [reflexivity | simpl in Hj; lia]. }
  split; [|split; [exact Hagree|]].
  - intros E.
    apply (f_equal (fun fns : array (option (double -> BoundaryPoint2 -> double)) =>
                      option_map (fun target => target 0%float (mkPoint 3 0))
                        (fns 0%nat))) in E.
    vm_compute in E. revert E. apply double_neq; reflexivity.
  - apply (update_nodes_deterministic 0%float two_inlets two_inlets_lid
             eq_refl eq_refl eq_refl Hagree).
    intros node j [].
Defined.

Lemma OMP_update_nodes_sequential_witness :
  OMPVelocityInitializer.update_nodes 0%float two_inlets
    (Returns (fst (VelocityInitializer.update_nodes 0%float two_inlets))) /\
  snd (VelocityInitializer.update_nodes 0%float two_inlets) = Normal.
Proof.
  assert (Hrun : OMPVelocityInitializer.update_nodes 0%float two_inlets
            (Returns (fst (VelocityInitializer.update_nodes 0%float two_inlets))))
    by exact (OMP_update_nodes_admits_sequential 0%float two_inlets).
  split; [exact Hrun|].
  refine (proj1 (OMP_update_nodes_sequential 0%float two_inlets _ _ _ _ Hrun)).
  - apply (update_nodes_Normal 0%float). reflexivity.
  - simpl. repeat constructor; simpl; intuition discriminate.
  - simpl. constructor.
Defined.

(* ===================================================================== *)
(** ** Further properties of [update_nodes] *)
(* ===================================================================== *)

Section ServedRequests.
Context {L : Lattice}.

(** The last element of a list that [f] sends to [b]. *)
Lemma in_map_split_last {A B} (f : A -> B)
    (B_eq_dec : forall x y : B, {x = y} + {x <> y}) (l : list A) (b : B) :
  In b (map f l) ->
  exists l1 x l2, l = l1 ++ x :: l2 /\ f x = b /\ ~ In b (map f l2).
Proof.
  induction l as [|a l IH]; simpl; [tauto|]. intros Hb.
  destruct (in_dec B_eq_dec b (map f l)) as [Hin|Hout].
  - destruct (IH Hin) as (l1 & x & l2 & -> & Hx & Hl2).
    exists (a :: l1), x, l2. auto.
  - destruct Hb as [Ha|Hin]; [|tauto]. exists [], a, l. auto.
Qed.

(** Among servable, consistent requests every request is honoured: its
    cell ends with its value, wherever the request stands. *)
Lemma apply_stores_honours ws t idx val :
  Eigen.allocated t ->
  Forall (servable (Eigen.dimensions t)) ws -> consistent ws ->
  In (idx, Some val) ws ->
  Eigen.coeff (fst (apply_stores ws t)) idx = Some val.
Proof.
  intros Hal Hs Hc Hin.
  assert (Hidx : In idx (map fst ws)).
  { apply in_map_iff. exists (idx, Some val). split; [reflexivity|exact Hin]. }
  destruct (in_map_split_last fst (List.list_eq_dec Z.eq_dec) ws idx Hidx)
    as (ws1 & [idx' val'] & ws2 & E & Hi & Hlast).
  simpl in Hi. subst idx'.
  assert (val' = Some val) as ->.
  { apply (Hc (idx, val') (idx, Some val)); auto.
    rewrite E. apply in_elt. }
  assert (Hn : snd (apply_stores ws t) = Normal) by now apply apply_stores_Normal.
  rewrite E in *. now apply apply_stores_last.
Qed.

(** What an exception of a run tells about the requests. *)
Lemma apply_stores_Throw ws : forall t e,
  snd (apply_stores ws t) = Throw e ->
  match e with
  | bad_function_call => exists idx, In (idx, None) ws
  | assertion_failure =>
      exists idx val,
        In (idx, Some val) ws /\
        Eigen.checkIndexRange (Eigen.dimensions t) idx = false
  end.
Proof.
  induction ws as [|[idx [val|]] ws IH]; intros t e; simpl.
  - discriminate.
  - unfold Eigen.assign.
    destruct (Eigen.checkIndexRange (Eigen.dimensions t) idx) eqn:Hr.
    + intros H. apply IH in H. simpl in H.
      destruct e; [destruct H as (i & H) | destruct H as (i & v & H & Hr')];
        eauto 6.
    + simpl. intros [= <-]. eauto.
  - intros [= <-]. eauto.
Qed.

(** The cells named by the requests of a call do not depend on the time
    nor on the update functions. *)
Lemma node_stores_cells_flat fns time_step nodes :
  map fst (flat_map (node_stores fns time_step) nodes) =
  flat_map node_cells nodes.
Proof.
  induction nodes as [|p nodes IH]; [reflexivity|].
  cbn [flat_map]. rewrite map_app, node_stores_cells. f_equal. exact IH.
Qed.

Lemma in_node_stores fns time_step node j target :
  (j < dim)%nat -> fns j = Some target ->
  In (Point node ++ [Z.of_nat j], Some (target time_step node))
     (node_stores fns time_step node).
Proof.
  intros Hj Ht. unfold node_stores. apply in_map_iff. exists j.
  rewrite Ht. split; [reflexivity|]. apply in_seq. lia.
Qed.

Lemma NoDup_app_apart {A} (l1 l2 : list A) a :
  List.NoDup (l1 ++ l2) -> In a l1 -> ~ In a l2.
Proof.
  induction l1 as [|b l1 IH]; simpl; [tauto|].
  intros Hnd [->|Ha] H2; apply List.NoDup_cons_iff in Hnd as [Hb Hnd].
  - apply Hb. apply in_app_iff. now right.
  - now apply IH.
Qed.

(** Without duplicate coordinates over both vectors, the requests of a
    call are consistent. *)
Lemma all_stores_consistent st time_step :
  List.NoDup (map Point (inlet_nodes st ++ outlet_nodes st)) ->
  consistent (all_stores st time_step).
Proof.
  intros Hnd. unfold all_stores. rewrite map_app in Hnd.
  apply consistent_app.
  - apply flat_map_node_stores_consistent.
    eapply NoDup_app_remove_r; eauto.
  - apply flat_map_node_stores_consistent.
    eapply NoDup_app_remove_l; eauto.
  - intros w1 w2 H1 H2 E.
    apply in_flat_map in H1 as (p & Hp & H1).
    apply in_flat_map in H2 as (q & Hq & H2).
    revert E. eapply node_stores_apart; eauto.
    intros Epq.
    apply (NoDup_app_apart _ _ (Point p) Hnd); [|rewrite Epq]; now apply in_map.
Qed.

End ServedRequests.

Section Overwriting.
Context {L : Lattice}.

(** The storage after one servable request, and after a list of them. *)
Definition put (dimensions : list Eigen.Index) (w : store_request)
    (data : list double) : list double :=
  match snd w with
  | Some val =>
      <[Z.to_nat (Eigen.IndexOfColMajor dimensions (fst w)) := val]> data
  | None => data
  end.

Definition puts (dimensions : list Eigen.Index) (ws : list store_request)
    (data : list double) : list double :=
  fold_left (fun d w => put dimensions w d) ws data.

Lemma apply_stores_puts ws : forall t,
  Forall (servable (Eigen.dimensions t)) ws ->
  apply_stores ws t =
  (Eigen.mkTensor (Eigen.dimensions t)
     (puts (Eigen.dimensions t) ws (Eigen.data t)), Normal).
Proof.
  induction ws as [|[idx val] ws IH]; intros t Hs.
  - destruct t. reflexivity.
  - inversion Hs as [|? ? [Hr [v Hv]] Hs']; subst. simpl in Hr, Hv. subst val.
    simpl. unfold Eigen.assign. rewrite Hr. rewrite IH by exact Hs'.
    reflexivity.
Qed.

(** A store is absorbed by later stores that name its cell again. *)
Lemma puts_absorb dimensions w ws : forall data,
  servable dimensions w -> Forall (servable dimensions) ws ->
  In (fst w) (map fst ws) ->
  puts dimensions ws (put dimensions w data) = puts dimensions ws data.
Proof.
  destruct w as [idx ov]. intros data [Hr [v Hv]]. simpl in Hr, Hv. subst ov.
  revert data. induction ws as [|[idx' ov'] ws IH]; intros data Hs Hin;
    [destruct Hin|].
  inversion Hs as [|? ? [Hr' [v' Hv']] Hs']; subst. simpl in Hr', Hv'. subst ov'.
  simpl in Hin. unfold puts in *. simpl. unfold put at 2 4. simpl.
  destruct (List.list_eq_dec Z.eq_dec idx' idx) as [->|Hne].
  - unfold put at 2. simpl. now rewrite list_insert_insert_eq.
  - unfold put at 2. simpl.
    rewrite list_insert_insert_ne.
    + apply (IH (<[_ := v']> data)); [exact Hs' | tauto].
    + intros E. apply Hne.
      apply (Eigen.IndexOfColMajor_inj dimensions); auto.
      pose proof (Eigen.IndexOfColMajor_bounds _ _ Hr).
      pose proof (Eigen.IndexOfColMajor_bounds _ _ Hr'). lia.
Qed.

(** Stores are overwritten by later stores that name all their cells. *)
Lemma puts_override dimensions ws2 ws1 : forall data,
  Forall (servable dimensions) ws1 -> Forall (servable dimensions) ws2 ->
  incl (map fst ws1) (map fst ws2) ->
  puts dimensions ws2 (puts dimensions ws1 data) = puts dimensions ws2 data.
Proof.
  induction ws1 as [|w ws1 IH]; intros data Hs1 Hs2 Hincl; [reflexivity|].
  inversion Hs1 as [|? ? Hw Hs1']; subst.
  change (puts dimensions (w :: ws1) data)
    with (puts dimensions ws1 (put dimensions w data)).
  rewrite IH; auto.
  - apply puts_absorb; auto. apply Hincl. now left.
  - intros i Hi. apply Hincl. now right.
Qed.

Lemma all_stores_cells st time_step :
  map fst (all_stores st time_step) =
  flat_map node_cells (inlet_nodes st) ++ flat_map node_cells (outlet_nodes st).
Proof.
  unfold all_stores. rewrite map_app. f_equal; apply node_stores_cells_flat.
Qed.

Lemma ready_all_stores time_step s :
  ready s ->
  Forall (servable (Eigen.dimensions (velocity s)))
    (all_stores (policy s) time_step).
Proof.
  intros [Hi Ho]. unfold all_stores. apply Forall_app.
  split; now apply servable_node_stores.
Qed.

End Overwriting.

Section MoreOfUpdateNodes.
Context {L : Lattice}.

(** A call overwrites what an earlier call stored: after two calls the
    state is the state after the later one alone. *)
Theorem update_nodes_overrides (time_step1 time_step2 : double) (s : State) :
  ready s ->
  update_nodes time_step2 (fst (update_nodes time_step1 s)) =
  update_nodes time_step2 s.
Proof.
  intros Hr.
  pose proof (ready_all_stores time_step1 s Hr) as H1.
  pose proof (ready_all_stores time_step2 s Hr) as H2.
  rewrite (update_nodes_stores time_step1 s).
  rewrite (apply_stores_puts _ _ H1). cbn [fst snd].
  rewrite !update_nodes_stores. cbn [policy velocity density].
  rewrite (apply_stores_puts _ (velocity s) H2).
  rewrite apply_stores_puts by exact H2. cbn [fst snd Eigen.dimensions Eigen.data].
  rewrite puts_override; auto.
  rewrite !all_stores_cells. apply incl_refl.
Qed.

(** Without duplicate coordinates over the two vectors, every registered
    cell ends with the value of its own update function. *)
Theorem update_nodes_without_duplicates (time_step : double) (s : State) :
  Eigen.allocated (velocity s) -> ready s ->
  List.NoDup (map Point (inlet_nodes (policy s) ++ outlet_nodes (policy s))) ->
  snd (update_nodes time_step s) = Normal /\
  (forall node j target,
     In node (inlet_nodes (policy s)) -> (j < dim)%nat ->
     inlet_update_function (policy s) j = Some target ->
     Eigen.coeff (velocity (fst (update_nodes time_step s)))
       (Point node ++ [Z.of_nat j]) = Some (target time_step node)) /\
  (forall node j target,
     In node (outlet_nodes (policy s)) -> (j < dim)%nat ->
     outlet_update_function (policy s) j = Some target ->
     Eigen.coeff (velocity (fst (update_nodes time_step s)))
       (Point node ++ [Z.of_nat j]) = Some (target time_step node)).
Proof.
  intros Hal Hr Hnd.
  split; [now apply update_nodes_Normal|].
  pose proof (ready_all_stores time_step s Hr) as Hs.
  pose proof (all_stores_consistent (policy s) time_step Hnd) as Hc.
  rewrite update_nodes_stores. cbn [fst velocity].
  split; intros node j target Hn Hj Ht;
    apply apply_stores_honours; auto;
    unfold all_stores; apply in_app_iff; [left|right];
    apply in_flat_map; exists node; (split; [exact Hn|]);
    now apply in_node_stores.
Qed.

(** What an exception of [update_nodes] tells: [bad_function_call] comes
    from an empty update function of a vector that has a node, and a
    failed assertion from a registered point outside the field. *)
Theorem update_nodes_failure_cause (time_step : double) (s : State) :
  (snd (update_nodes time_step s) = Throw bad_function_call ->
   exists j, (j < dim)%nat /\
     ((inlet_nodes (policy s) <> [] /\
       inlet_update_function (policy s) j = None) \/
      (outlet_nodes (policy s) <> [] /\
       outlet_update_function (policy s) j = None))) /\
  (snd (update_nodes time_step s) = Throw assertion_failure ->
   exists node j, (j < dim)%nat /\
     In node (inlet_nodes (policy s) ++ outlet_nodes (policy s)) /\
     Eigen.checkIndexRange (Eigen.dimensions (velocity s))
       (Point node ++ [Z.of_nat j]) = false).
Proof.
  rewrite update_nodes_stores. cbn [snd]. split; intros H;
    apply apply_stores_Throw in H; cbn beta iota in H.
  - destruct H as (idx & H). unfold all_stores in H.
    apply in_app_iff in H as [H|H];
      apply in_flat_map in H as (node & Hn & H);
      unfold node_stores in H; apply in_map_iff in H as (j & E & Hj);
      apply in_seq in Hj; injection E as _ E;
      exists j; (split; [lia|]); [left|right];
      (split; [intros E'; rewrite E' in Hn; destruct Hn|]).
    + destruct (inlet_update_function (policy s) j);
        [discriminate|reflexivity].
    + destruct (outlet_update_function (policy s) j);
        [discriminate|reflexivity].
  - destruct H as (idx & val & H & Hr). unfold all_stores in H.
    apply in_app_iff in H as [H|H];
      apply in_flat_map in H as (node & Hn & H);
      unfold node_stores in H; apply in_map_iff in H as (j & E & Hj);
      apply in_seq in Hj; injection E as <- _;
      exists node, j; (split; [lia|]); (split; [|exact Hr]);
      apply in_app_iff; [left|right]; exact Hn.
Qed.

(** An empty first outlet function with an outlet node registered: the
    call never completes normally and stores nothing for an outlet node.
    The velocity field is the one that a call without outlet nodes
    leaves; the exception is the one of the inlet pass when that pass
    fails, and [std::bad_function_call] otherwise, which is then thrown
    after the whole inlet pass has been stored. *)
Theorem update_nodes_empty_outlet_function (time_step : double) (s : State) :
  outlet_nodes (policy s) <> [] -> (0 < dim)%nat ->
  outlet_update_function (policy s) 0%nat = None ->
  update_nodes time_step s =
  (mkState (policy s)
     (velocity (fst (update_nodes time_step
                       (attach_nodes (inlet_nodes (policy s)) [] s))))
     (density s),
   match snd (update_nodes time_step
                (attach_nodes (inlet_nodes (policy s)) [] s)) with
   | Return _ => Throw bad_function_call
   | Throw e => Throw e
   end).
Proof.
  intros Hne Hdim Hf. rewrite !update_nodes_stores.
  cbn [fst snd velocity policy attach_nodes]. unfold all_stores.
  cbn [inlet_nodes outlet_nodes inlet_update_function outlet_update_function
       flat_map]. rewrite app_nil_r.
  rewrite apply_stores_app.
  destruct (apply_stores _ (velocity s)) as [t1 [[]|e]]; [|reflexivity].
  cbn [fst snd].
  destruct (outlet_nodes (policy s)) as [|q outlet]; [congruence|].
  assert (E : exists rest,
            node_stores (outlet_update_function (policy s)) time_step q =
            (Point q ++ [Z.of_nat 0], None) :: rest).
  { assert (Es : seq 0 dim = 0%nat :: seq 1 (dim - 1)).
    { replace dim with (S (dim - 1)) at 1 by lia. reflexivity. }
    unfold node_stores. rewrite Es. cbn [map]. rewrite Hf.
    eexists. reflexivity. }
  destruct E as (rest & E). cbn [flat_map]. rewrite E. reflexivity.
Qed.

(** From a ready state, the order of the nodes inside each vector does
    not matter when the vector has no duplicate coordinates: with the
    vectors permuted the call completes normally too, and leaves the
    same field. *)
Theorem update_nodes_order_irrelevant (time_step : double) (s : State)
    (inlet_nodes_ outlet_nodes_ : list BoundaryPoint) :
  Permutation (inlet_nodes (policy s)) inlet_nodes_ ->
  Permutation (outlet_nodes (policy s)) outlet_nodes_ ->
  List.NoDup (map Point (inlet_nodes (policy s))) ->
  List.NoDup (map Point (outlet_nodes (policy s))) ->
  ready s ->
  velocity (fst (update_nodes time_step
                   (attach_nodes inlet_nodes_ outlet_nodes_ s))) =
  velocity (fst (update_nodes time_step s)) /\
  snd (update_nodes time_step (attach_nodes inlet_nodes_ outlet_nodes_ s))
  = Normal.
Proof.
  intros Hpi Hpo Hni Hno [Hri Hro].
  rewrite !update_nodes_stores.
  cbn [fst snd velocity policy attach_nodes]. unfold all_stores.
  cbn [inlet_nodes outlet_nodes inlet_update_function outlet_update_function].
  set (fi := inlet_update_function (policy s)) in *.
  set (fo := outlet_update_function (policy s)) in *.
  rewrite !apply_stores_app.
  assert (Ei : apply_stores (flat_map (node_stores fi time_step)
                               (inlet_nodes (policy s))) (velocity s) =
               apply_stores (flat_map (node_stores fi time_step) inlet_nodes_)
                 (velocity s)).
  { apply apply_stores_Permutation.
    - now apply Permutation_flat_map.
    - now apply servable_node_stores.
    - now apply flat_map_node_stores_consistent. }
  rewrite <- Ei.
  assert (Hsi : Forall (servable (Eigen.dimensions (velocity s)))
                  (flat_map (node_stores fi time_step) (inlet_nodes (policy s))))
    by now apply servable_node_stores.
  rewrite (apply_stores_puts _ _ Hsi).
  set (t1 := Eigen.mkTensor _ _).
  assert (Eo : apply_stores (flat_map (node_stores fo time_step)
                               (outlet_nodes (policy s))) t1 =
               apply_stores (flat_map (node_stores fo time_step) outlet_nodes_) t1).
  { apply apply_stores_Permutation.
    - now apply Permutation_flat_map.
    - now apply servable_node_stores.
    - now apply flat_map_node_stores_consistent. }
  rewrite <- Eo. split; [reflexivity|].
  apply apply_stores_Normal. now apply servable_node_stores.
Qed.

(** A call of the OpenMP policy that returns has touched no cell away
    from the registered coordinates, nor the static members, nor the
    caller's density, whatever the interleaving of its passes. *)
Theorem OMP_update_nodes_frame (time_step : double) (s s' : State)
    (c : list Eigen.Index) (j : Eigen.Index) :
  OMPVelocityInitializer.update_nodes time_step s (Returns s') ->
  ~ In c (map Point (inlet_nodes (policy s) ++ outlet_nodes (policy s))) ->
  Eigen.coeff (velocity s') (c ++ [j]) = Eigen.coeff (velocity s) (c ++ [j]) /\
  policy s' = policy s /\ density s' = density s.
Proof.
  intros (t1 & r1 & (sched1 & Hi1 & Hrun1) & Hrest) Hc.
  rewrite map_app, in_app_iff in Hc.
  assert (Hframe : forall fns nodes sched t,
            interleaving (map (node_stores fns time_step) nodes) sched ->
            ~ In c (map Point nodes) ->
            Eigen.coeff (fst (apply_stores sched t)) (c ++ [j]) =
            Eigen.coeff t (c ++ [j])).
  { intros fns nodes sched t Hi Hn. apply apply_stores_frame. intros Hin.
    apply interleaving_Permutation in Hi.
    rewrite <- flat_map_concat_map in Hi.
    apply Permutation_sym in Hi.
    apply (Permutation_map fst) in Hi.
    apply (Permutation_in _ Hi) in Hin.
    apply in_flat_map_node_stores in Hin. tauto. }
  assert (H1 : Eigen.coeff t1 (c ++ [j]) = Eigen.coeff (velocity s) (c ++ [j])).
  { change t1 with (fst (t1, r1)). rewrite <- Hrun1.
    eapply Hframe; eauto. }
  destruct r1 as [[]|e]; [|discriminate Hrest].
  destruct Hrest as (t2 & r2 & (sched2 & Hi2 & Hrun2) & Ho).
  destruct r2 as [[]|e]; [|discriminate Ho]. injection Ho as ->. simpl.
  split; [|split; reflexivity]. rewrite <- H1.
  change t2 with (fst (t2, Return tt : result unit)). rewrite <- Hrun2.
  eapply Hframe; eauto.
Qed.

End MoreOfUpdateNodes.

(* ===================================================================== *)
(** ** [print_data] *)
(* ===================================================================== *)

From stdpp Require Import strings pretty.

Open Scope Z_scope.

Module Stream.

(** The text [std::endl] inserts (it also flushes the stream). *)
Definition endl : string := String (Ascii.ascii_of_nat 10) "".

(** [std::cout << text]: the state is what has been written so far. *)
Definition cout (text : string) : M string unit :=
  fun out => (out +:+ text, Normal).

(** How many times a character occurs in a text. *)
Fixpoint occurrences (c : Ascii.ascii) (s : string) : nat :=
  match s with
  | EmptyString => 0
  | String a s' => (if Ascii.eqb a c then 1 else 0) + occurrences c s'
  end.

Lemma append_assoc (s1 s2 s3 : string) :
  (s1 +:+ s2) +:+ s3 = s1 +:+ (s2 +:+ s3).
Proof.
  induction s1 as [|a s1 IH]; [reflexivity|].
  change (String a ((s1 +:+ s2) +:+ s3) = String a (s1 +:+ (s2 +:+ s3))).
  now f_equal.
Qed.

Lemma append_nil_r (s : string) : s +:+ "" = s.
Proof.
  induction s as [|a s IH]; [reflexivity|].
  change (String a (s +:+ "") = String a s). now f_equal.
Qed.

Lemma append_cancel_l (s a b : string) : s +:+ a = s +:+ b -> a = b.
Proof.
  induction s as [|c s IH]; [auto|].
  change (String c (s +:+ a) = String c (s +:+ b) -> a = b).
  intros [= H]. auto.
Qed.

Lemma occurrences_append c (s1 s2 : string) :
  occurrences c (s1 +:+ s2) = (occurrences c s1 + occurrences c s2)%nat.
Proof.
  induction s1 as [|a s1 IH]; [reflexivity|].
  change (occurrences c (String a (s1 +:+ s2)) =
          (occurrences c (String a s1) + occurrences c s2)%nat).
  cbn [occurrences]. rewrite IH. lia.
Qed.

(** Two texts that end at the first occurrence of a separator. *)
Lemma append_separator_inj c (s1 s2 r1 r2 : string) :
  occurrences c s1 = 0%nat -> occurrences c s2 = 0%nat ->
  s1 +:+ String c r1 = s2 +:+ String c r2 -> s1 = s2 /\ r1 = r2.
Proof.
  revert s2. induction s1 as [|a s1 IH]; intros [|b s2];
    cbn [String.append occurrences].
  - intros _ _ [= ->]. auto.
  - intros _ H [= <- _]. rewrite Ascii.eqb_refl in H. discriminate.
  - intros H _ [= -> _]. rewrite Ascii.eqb_refl in H. discriminate.
  - intros H1 H2 [= -> E].
    destruct (Ascii.eqb b c); [discriminate|].
    destruct (IH s2 H1 H2 E) as [-> ->]. auto.
Qed.

(** Decimal numerals are made of digits. *)
Definition not_a_digit (c : Ascii.ascii) : Prop :=
  forall d : N, Ascii.eqb (pretty_N_char d) c = false.

Lemma occurrences_pretty_N_go c (x : N) : forall s,
  not_a_digit c -> occurrences c (pretty_N_go x s) = occurrences c s.
Proof.
  induction (N.lt_wf_0 x) as [x _ IH]. intros s Hc.
  destruct (N.eq_dec x 0%N) as [->|Hx].
  - now rewrite pretty_N_go_0.
  - rewrite pretty_N_go_step by lia.
    rewrite IH by (try apply N.div_lt; (lia || assumption)).
    simpl. now rewrite Hc.
Qed.

Lemma occurrences_pretty_nat c (i : nat) :
  not_a_digit c -> occurrences c (pretty i) = 0%nat.
Proof.
  intros Hc. unfold pretty, pretty_nat, pretty, pretty_N.
  destruct (decide (N.of_nat i = 0%N)).
  - simpl. specialize (Hc 0%N). simpl in Hc. now rewrite Hc.
  - now rewrite occurrences_pretty_N_go.
Qed.

Lemma occurrences_pretty_Z c (x : Z) :
  not_a_digit c -> Ascii.eqb (Ascii.ascii_of_nat 45) c = false ->
  occurrences c (pretty x) = 0%nat.
Proof.
  intros Hc Hd. unfold pretty, pretty_Z.
  assert (Hp : forall p : positive, occurrences c (pretty p) = 0%nat).
  { intros p. unfold pretty, pretty_positive, pretty, pretty_N.
    destruct (decide (N.pos p = 0%N)); [discriminate|].
    now rewrite occurrences_pretty_N_go. }
  destruct x as [|p|p].
  - simpl. specialize (Hc 0%N). simpl in Hc. now rewrite Hc.
  - apply Hp.
  - change (occurrences c (String (Ascii.ascii_of_nat 45) (pretty p)) = 0%nat).
    cbn [occurrences]. rewrite Hd. apply Hp.
Qed.

Lemma space_not_a_digit : not_a_digit (Ascii.ascii_of_nat 32).
Proof. intros d. unfold pretty_N_char. repeat case_match; reflexivity. Qed.

Lemma newline_not_a_digit : not_a_digit (Ascii.ascii_of_nat 10).
Proof. intros d. unfold pretty_N_char. repeat case_match; reflexivity. Qed.

End Stream.

Import Stream.

Module Printing.
Section Printing.
Context {L : Lattice}.

(** [print_data]: the four classes have the same text. The static
    members are only read. [operator<<] on a [std::size_t] or an
    [Eigen::Index] writes the decimal numeral, with a leading [-] for a
    negative value ([std::cout] in its default format); that is
    [pretty]. *)
Definition print_data (st : Statics) : M string unit :=
  (cout "Inlet nodes: " ;; cout endl ;;
   for_range (length (inlet_nodes st)) (fun i =>
     match inlet_nodes st !! i with
     | Some node =>
         cout "Node " ;; cout (pretty i) ;; cout ": " ;;
         for_range dim (fun j => cout (pretty (coords node j)) ;; cout " ") ;;
         cout endl
     | None => skip
     end) ;;
   cout "Outlet nodes: " ;; cout endl ;;
   for_range (length (outlet_nodes st)) (fun i =>
     match outlet_nodes st !! i with
     | Some node =>
         cout "Node " ;; cout (pretty i) ;; cout ": " ;;
         for_range dim (fun j => cout (pretty (coords node j)) ;; cout " ") ;;
         cout endl
     | None => skip
     end))%cmd.

(** The text of a coordinate tuple, of a node line and of the lines of
    a vector numbered from [i]. *)
Fixpoint tuple_text (c : list Eigen.Index) : string :=
  match c with
  | [] => ""
  | x :: c' => pretty x +:+ " " +:+ tuple_text c'
  end.

Definition node_text (i : nat) (c : list Eigen.Index) : string :=
  "Node " +:+ pretty i +:+ ": " +:+ tuple_text c +:+ endl.

Fixpoint nodes_text (i : nat) (cs : list (list Eigen.Index)) : string :=
  match cs with
  | [] => ""
  | c :: cs' => node_text i c +:+ nodes_text (S i) cs'
  end.

Definition data_text (st : Statics) : string :=
  "Inlet nodes: " +:+ endl +:+ nodes_text 0 (map Point (inlet_nodes st)) +:+
  "Outlet nodes: " +:+ endl +:+ nodes_text 0 (map Point (outlet_nodes st)).

(** A command writes [w] when it appends [w] to the stream and
    completes normally. *)
Definition writes (c : M string unit) (w : string) : Prop :=
  forall out, c out = (out +:+ w, Normal).

Lemma writes_cout w : writes (cout w) w.
Proof. intros out. reflexivity. Qed.

Lemma writes_skip : writes skip "".
Proof. intros out. unfold skip, ret. now rewrite append_nil_r. Qed.

Lemma writes_bind c1 c2 w1 w2 :
  writes c1 w1 -> writes c2 w2 -> writes (bind c1 (fun _ => c2)) (w1 +:+ w2).
Proof.
  intros H1 H2 out. unfold bind. rewrite H1, H2. now rewrite append_assoc.
Qed.

Lemma writes_tuple node (l : list nat) :
  writes (for_each l (fun j => cout (pretty (coords node j)) ;; cout " ")%cmd)
         (tuple_text (map (coords node) l)).
Proof.
  induction l as [|j l IH]; [apply writes_skip|].
  cbn [for_each map tuple_text].
  replace (pretty (coords node j) +:+ " " +:+ tuple_text (map (coords node) l))
    with ((pretty (coords node j) +:+ " ") +:+ tuple_text (map (coords node) l))
    by apply append_assoc.
  apply writes_bind; [|exact IH].
  apply writes_bind; apply writes_cout.
Qed.

Lemma writes_node i node :
  writes (cout "Node " ;; cout (pretty i) ;; cout ": " ;;
          for_range dim (fun j => cout (pretty (coords node j)) ;; cout " ") ;;
          cout endl)%cmd
         (node_text i (Point node)).
Proof.
  unfold node_text.
  repeat (apply writes_bind; [apply writes_cout|]).
  apply writes_bind; [apply writes_tuple | apply writes_cout].
Qed.

Lemma writes_nodes (nodes : list BoundaryPoint) :
  writes (for_range (length nodes) (fun i =>
            match nodes !! i with
            | Some node =>
                cout "Node " ;; cout (pretty i) ;; cout ": " ;;
                for_range dim
                  (fun j => cout (pretty (coords node j)) ;; cout " ") ;;
                cout endl
            | None => skip
            end)%cmd)
         (nodes_text 0 (map Point nodes)).
Proof.
  unfold for_range at 1.
  assert (G : forall (pre : list BoundaryPoint),
    writes (for_each (seq (length pre) (length nodes)) (fun i =>
              match (pre ++ nodes) !! i with
              | Some node =>
                  cout "Node " ;; cout (pretty i) ;; cout ": " ;;
                  for_range dim
                    (fun j => cout (pretty (coords node j)) ;; cout " ") ;;
                  cout endl
              | None => skip
              end)%cmd)
           (nodes_text (length pre) (map Point nodes))).
  { induction nodes as [|node nodes IH]; intros pre; [apply writes_skip|].
    cbn [length seq for_each map nodes_text].
    rewrite list_lookup_middle by reflexivity.
    apply writes_bind; [apply writes_node|].
    specialize (IH (pre ++ [node])).
    rewrite length_app in IH. cbn [length] in IH.
    replace (length pre + 1)%nat with (S (length pre)) in IH by lia.
    rewrite <- app_assoc in IH. exact IH. }
  apply (G []).
Qed.

(** [print_data] appends [data_text] to the stream, and never throws. *)
Lemma print_data_text st : writes (print_data st) (data_text st).
Proof.
  unfold print_data, data_text.
  repeat (apply writes_bind; [first [apply writes_cout | apply writes_nodes]|]).
  apply writes_nodes.
Qed.

End Printing.
End Printing.

Import Printing.

Section PrintedText.
Context {L : Lattice}.

Lemma Point_length (node : BoundaryPoint) : length (Point node) = dim.
Proof. apply to_list_length. Qed.

(** Tuples of the same length are read back from their text. *)
Lemma tuple_text_inj (c1 : list Eigen.Index) : forall c2 r1 r2,
  length c1 = length c2 ->
  tuple_text c1 +:+ r1 = tuple_text c2 +:+ r2 -> c1 = c2 /\ r1 = r2.
Proof.
  induction c1 as [|x c1 IH]; intros [|y c2] r1 r2 Hl; try discriminate.
  - auto.
  - cbn [tuple_text]. rewrite !append_assoc.
    change (pretty x +:+ String (Ascii.ascii_of_nat 32) (tuple_text c1 +:+ r1) =
            pretty y +:+ String (Ascii.ascii_of_nat 32) (tuple_text c2 +:+ r2)
            -> x :: c1 = y :: c2 /\ r1 = r2).
    intros E.
    apply append_separator_inj in E as [Ex E];
      try (apply occurrences_pretty_Z; [apply space_not_a_digit|reflexivity]).
    apply (inj pretty) in Ex. subst y.
    injection Hl as Hl. destruct (IH c2 r1 r2 Hl E) as [-> ->]. auto.
Qed.

(** A text that is not the beginning of a node line. *)
Definition no_node_line (r : string) : Prop :=
  match r with
  | EmptyString => True
  | String c _ => c <> Ascii.ascii_of_nat 78
  end.

(** The lines of two vectors of points, numbered alike, are read back. *)
Lemma nodes_text_inj (cs1 : list (list Eigen.Index)) : forall cs2 i r1 r2,
  Forall (fun c => length c = dim) cs1 ->
  Forall (fun c => length c = dim) cs2 ->
  no_node_line r1 -> no_node_line r2 ->
  nodes_text i cs1 +:+ r1 = nodes_text i cs2 +:+ r2 ->
  cs1 = cs2 /\ r1 = r2.
Proof.
  induction cs1 as [|c1 cs1 IH]; intros [|c2 cs2] i r1 r2 H1 H2 Hr1 Hr2.
  - cbn [nodes_text String.append]. auto.
  - cbn [nodes_text]. unfold node_text. intros E.
    destruct r1 as [|a r1]; [discriminate E|].
    injection E as -> _. destruct Hr1. reflexivity.
  - cbn [nodes_text]. unfold node_text. intros E.
    destruct r2 as [|a r2]; [discriminate E|].
    injection E as <- _. destruct Hr2. reflexivity.
  - inversion H1 as [|? ? Hc1 H1']; inversion H2 as [|? ? Hc2 H2']; subst.
    cbn [nodes_text]. unfold node_text. rewrite !append_assoc.
    intros E. do 3 apply append_cancel_l in E.
    apply tuple_text_inj in E as [-> E]; [|congruence].
    apply append_cancel_l in E.
    destruct (IH cs2 (S i) r1 r2 H1' H2' Hr1 Hr2 E) as [-> ->]. auto.
Qed.

Lemma Forall_Point_length (nodes : list BoundaryPoint) :
  Forall (fun c => length c = dim) (map Point nodes).
Proof.
  apply Forall_map. apply Forall_forall. intros node _. apply Point_length.
Qed.

Lemma occurrences_tuple_text (c : list Eigen.Index) :
  occurrences (Ascii.ascii_of_nat 10) (tuple_text c) = 0%nat.
Proof.
  induction c as [|x c IH]; [reflexivity|].
  cbn [tuple_text]. rewrite !occurrences_append, IH.
  rewrite occurrences_pretty_Z by (apply newline_not_a_digit || reflexivity).
  reflexivity.
Qed.

Lemma occurrences_nodes_text (cs : list (list Eigen.Index)) : forall i,
  occurrences (Ascii.ascii_of_nat 10) (nodes_text i cs) = length cs.
Proof.
  induction cs as [|c cs IH]; intros i; [reflexivity|].
  cbn [nodes_text length]. unfold node_text.
  rewrite !occurrences_append, IH, occurrences_tuple_text.
  rewrite occurrences_pretty_nat by apply newline_not_a_digit.
  reflexivity.
Qed.

(** The dump is lossless: two sets of static members print the same
    text exactly when their inlet vectors list the same coordinates in
    the same order, and their outlet vectors too. *)
Theorem print_data_lossless (st1 st2 : Statics) (out : string) :
  fst (print_data st1 out) = fst (print_data st2 out) <->
  map Point (inlet_nodes st1) = map Point (inlet_nodes st2) /\
  map Point (outlet_nodes st1) = map Point (outlet_nodes st2).
Proof.
  rewrite !print_data_text. cbn [fst]. unfold data_text. split.
  - intros E. do 3 apply append_cancel_l in E.
    apply nodes_text_inj in E as [Ei E];
      try apply Forall_Point_length; try (simpl; discriminate).
    do 2 apply append_cancel_l in E.
    rewrite <- (append_nil_r (nodes_text 0 (map Point (outlet_nodes st1)))),
            <- (append_nil_r (nodes_text 0 (map Point (outlet_nodes st2)))) in E.
    apply nodes_text_inj in E as [Eo _];
      try apply Forall_Point_length; try exact I.
    auto.
  - intros [-> ->]. reflexivity.
Qed.

(** The dump appends to the stream, never throws, and has one line per
    heading and one per registered node. *)
Theorem print_data_lines (st : Statics) (out : string) :
  snd (print_data st out) = Normal /\
  exists text,
    fst (print_data st out) = out +:+ text /\
    occurrences (Ascii.ascii_of_nat 10) text =
    (2 + length (inlet_nodes st) + length (outlet_nodes st))%nat.
Proof.
  split; [now rewrite print_data_text|].
  exists (data_text st). rewrite print_data_text. split; [reflexivity|].
  unfold data_text. rewrite !occurrences_append, !occurrences_nodes_text.
  rewrite !length_map.
  change (occurrences (Ascii.ascii_of_nat 10) "Inlet nodes: ") with 0%nat.
  change (occurrences (Ascii.ascii_of_nat 10) "Outlet nodes: ") with 0%nat.
  change (occurrences (Ascii.ascii_of_nat 10) endl) with 1%nat.
  lia.
Qed.

End PrintedText.

(* ===================================================================== *)
(** ** The set-up of [LidWithOMPPSobstacle.cpp] *)
(* ===================================================================== *)

Module LidWithOMPPSobstacle.
Section Main.

(** [std::exp], and the point type of [BoundaryPoint<2>] with its
    member [coords]. *)
Variable exp : double -> double.
Variable BoundaryPoint_ : Type.
Variable coords_ : BoundaryPoint_ -> array Eigen.Index.

#[local] Instance lattice2 : Lattice :=
  {| dim := 2; BoundaryPoint := BoundaryPoint_; coords := coords_ |}.

(** [(1.0-std::exp(-((500*500*time)/(2*1000*1000))))]: the products of
    integer literals are evaluated as [int] (250000 and 2000000) and
    converted to [double]. *)
Definition start_up (time : double) : double :=
  (1 - exp (- ((250000 * time) / 2000000)))%float.

(** The function object stored in [VelocityFunctions[1]]. *)
Definition VelocityFunctions_1 (time : double) (Point : BoundaryPoint_)
  : double :=
  if (coords_ Point 1%nat =? 0)%Z then (one_fifth * start_up time)%float
  else if (coords_ Point 1%nat =? 99)%Z then ((- one_fifth) * start_up time)%float
  else 0%float.

(** The function object stored in [VelocityFunctions[0]]. *)
Definition VelocityFunctions_0 (time : double) (Point : BoundaryPoint_)
  : double :=
  if (coords_ Point 0%nat =? 0)%Z then (one_fifth * start_up time)%float
  else if (coords_ Point 0%nat =? 99)%Z then ((- one_fifth) * start_up time)%float
  else 0%float.

Definition VelocityFunctions : array update_function :=
  fun j => match j with
           | 0%nat => Some VelocityFunctions_0
           | 1%nat => Some VelocityFunctions_1
           | _ => None
           end.

(** [Outlets] is default-constructed and never assigned. *)
Definition Outlets : array update_function := fun _ => None.

(** [initializers::OMPVelocityInitializer<2>::attach_update_functions(
    VelocityFunctions,Outlets);] *)
Definition main_attach (s : State) : State :=
  attach_update_functions VelocityFunctions Outlets s.

(** The nodes that [add_nodes_interval({0,1}, {0,98}, INLET)] names:
    first coordinate 0, second coordinate from 1 to 98. *)
Definition on_inlet_interval (node : BoundaryPoint_) : Prop :=
  coords_ node 0%nat = 0 /\ 1 <= coords_ node 1%nat <= 98.

Lemma inlet_interval_stores time node :
  on_inlet_interval node ->
  node_stores VelocityFunctions time node =
  [ ([0; coords_ node 1%nat; 0], Some (one_fifth * start_up time)%float);
    ([0; coords_ node 1%nat; 1], Some 0%float) ].
Proof.
  intros [H0 H1]. unfold node_stores, Point, to_list. cbn.
  unfold VelocityFunctions_0, VelocityFunctions_1. rewrite H0.
  replace (coords_ node 1%nat =? 0) with false by (symmetry; apply Z.eqb_neq; lia).
  replace (coords_ node 1%nat =? 99) with false by (symmetry; apply Z.eqb_neq; lia).
  reflexivity.
Qed.

Lemma inlet_interval_servable time nodes :
  Forall on_inlet_interval nodes ->
  Forall (servable [100; 100; 2])
    (flat_map (node_stores VelocityFunctions time) nodes).
Proof.
  induction 1 as [|node nodes Hn _ IH]; cbn [flat_map]; [constructor|].
  rewrite (inlet_interval_stores time node Hn).
  destruct Hn as [_ Hn]. cbn [app].
  repeat constructor; cbn [fst snd]; eauto;
    cbn; repeat (apply andb_true_intro; split); lia.
Qed.

Lemma inlet_interval_consistent time nodes :
  Forall on_inlet_interval nodes ->
  consistent (flat_map (node_stores VelocityFunctions time) nodes).
Proof.
  intros Hn w1 w2 H1 H2.
  apply in_flat_map in H1 as (n1 & Hn1 & H1).
  apply in_flat_map in H2 as (n2 & Hn2 & H2).
  rewrite List.Forall_forall in Hn.
  rewrite (inlet_interval_stores time n1 (Hn _ Hn1)) in H1.
  rewrite (inlet_interval_stores time n2 (Hn _ Hn2)) in H2.
  destruct H1 as [<-|[<-|[]]], H2 as [<-|[<-|[]]]; cbn [fst snd];
    intros [= E]; reflexivity || discriminate.
Qed.

(** The set-up of the test run: update functions attached first, then
    the inlet nodes of the left column and no outlet node, over a
    100 x 100 lattice. Every run of the OpenMP policy returns, the
    empty [Outlets] notwithstanding, and leaves at every inlet node the
    velocity (0.2 * start_up, 0). *)
Theorem OMP_lid_inlets (time : double) (s0 : State) (o : outcome State)
    (inlet_nodes_ : list BoundaryPoint_) :
  Forall on_inlet_interval inlet_nodes_ ->
  Eigen.dimensions (velocity s0) = [100; 100; 2] ->
  Eigen.allocated (velocity s0) ->
  OMPVelocityInitializer.update_nodes time
    (attach_nodes inlet_nodes_ [] (main_attach s0)) o ->
  exists s',
    o = Returns s' /\
    forall node, In node inlet_nodes_ ->
      Eigen.coeff (velocity s') [0; coords_ node 1%nat; 0]
        = Some (one_fifth * start_up time)%float /\
      Eigen.coeff (velocity s') [0; coords_ node 1%nat; 1] = Some 0%float.
Proof.
  intros Hn Hd Hal (t1 & r1 & (sched1 & Hi1 & Hrun1) & Hrest).
  cbn [policy attach_nodes main_attach attach_update_functions velocity
       inlet_nodes outlet_nodes inlet_update_function outlet_update_function]
    in *.
  apply interleaving_Permutation in Hi1.
  rewrite <- flat_map_concat_map in Hi1.
  pose proof (inlet_interval_servable time _ Hn) as Hs.
  pose proof (inlet_interval_consistent time _ Hn) as Hc.
  rewrite <- Hd in Hs.
  apply (Permutation_Forall Hi1) in Hs.
  apply (consistent_Permutation _ _ Hi1) in Hc.
  assert (Hr1 : r1 = Normal).
  { change r1 with (snd (t1, r1)). rewrite <- Hrun1.
    now apply apply_stores_Normal. }
  subst r1. destruct Hrest as (t2 & r2 & (sched2 & Hi2 & Hrun2) & ->).
  apply interleaving_no_threads in Hi2. subst sched2.
  injection Hrun2 as <- <-. eexists. split; [reflexivity|].
  intros node Hnode. cbn [velocity].
  change t1 with (fst (t1, Normal)). rewrite <- Hrun1.
  rewrite List.Forall_forall in Hn.
  split; apply apply_stores_honours; auto;
    apply (Permutation_in _ Hi1); apply in_flat_map; exists node;
    (split; [exact Hnode|]);
    rewrite (inlet_interval_stores time node (Hn _ Hnode)); simpl; auto.
Qed.

(** When [std::exp] maps -0.0 to 1, every inlet target velocity of the
    test compares equal to zero at time 0: the lid starts at rest. *)
Theorem VelocityFunctions_start_at_rest (Point : BoundaryPoint_) (j : nat)
    (target : double -> BoundaryPoint_ -> double) :
  exp (-0)%float = 1%float ->
  VelocityFunctions j = Some target ->
  PrimFloat.eqb (target 0%float Point) 0%float = true.
Proof.
  intros Hexp Ht.
  assert (Hs : start_up 0%float = 0%float).
  { unfold start_up.
    change (- (250000 * 0 / 2000000))%float with (-0)%float.
    rewrite Hexp. reflexivity. }
  destruct j as [|[|j]]; [| |discriminate]; injection Ht as <-.
  - unfold VelocityFunctions_0. rewrite Hs.
    destruct (_ =? 0); [reflexivity|]. destruct (_ =? 99); reflexivity.
  - unfold VelocityFunctions_1. rewrite Hs.
    destruct (_ =? 0); [reflexivity|]. destruct (_ =? 99); reflexivity.
Qed.

End Main.
End LidWithOMPPSobstacle.

(* ===================================================================== *)
(** ** More on the shared index array of [STDExecVelocityInitializer] *)
(* ===================================================================== *)

Section SharedCoordinates.
Context {L : Lattice}.

Lemma interleaving_single {A} (th sched : list A) :
  interleaving [th] sched -> sched = th.
Proof.
  intros H. remember [th] as threads eqn:E. revert th E.
  induction H as [threads Hnil|before a th' after sched _ IH]; intros th E.
  - subst threads. inversion Hnil; subst. reflexivity.
  - destruct before as [|b before]; [|destruct before; discriminate E].
    destruct after; [|discriminate E]. injection E as <-.
    f_equal. now apply IH.
Qed.

Lemma interleaving_left {A} (a x y sched : list A) :
  interleaving [x; y] sched -> interleaving [a ++ x; y] (a ++ sched).
Proof.
  intros H. induction a as [|c a IH]; [exact H|].
  apply (interleaving_step [] c (a ++ x) [y]). exact IH.
Qed.

Lemma interleaving_right {A} (b x y sched : list A) :
  interleaving [x; y] sched -> interleaving [x; b ++ y] (b ++ sched).
Proof.
  intros H. induction b as [|c b IH]; [exact H|].
  apply (interleaving_step [x] c (b ++ y) []). exact IH.
Qed.

Lemma bind_skip (c : M Frame unit) fr : bind c (fun _ => skip) fr = c fr.
Proof. unfold bind. destruct (c fr) as [fr' [[]|e]]; reflexivity. Qed.

(** The two loops of the sequential policy, element by element. *)
Lemma update_loops_for_each st time_step fr :
  update_loops st time_step fr =
  (for_each (inlet_nodes st) (update_node (inlet_update_function st) time_step) ;;
   for_each (outlet_nodes st) (update_node (outlet_update_function st) time_step))%cmd
    fr.
Proof.
  unfold update_loops. cbn zeta.
  apply bind_ext; [apply for_range_lookup|].
  intros _ fr'. apply for_range_lookup.
Qed.

(** A parallel [for_each] over at most one element is the sequential
    loop. *)
Lemma for_each_par_single fns time_step nodes fr fr' r :
  (length nodes <= 1)%nat ->
  STDExecVelocityInitializer.for_each_par fns time_step nodes fr fr' r ->
  for_each nodes (update_node fns time_step) fr = (fr', r).
Proof.
  intros Hl (sched & Hi & Hrun).
  destruct nodes as [|node [|node' nodes]]; [| |simpl in Hl; lia].
  - apply interleaving_no_threads in Hi. subst sched. exact Hrun.
  - apply interleaving_single in Hi. subst sched.
    cbn [for_each]. rewrite bind_skip.
    rewrite <- STDExecVelocityInitializer.run_node_steps. exact Hrun.
Qed.

(** With at most one inlet node and at most one outlet node the
    parallel-algorithm policy has exactly one outcome. Where the
    sequential call completes normally, it returns the state that the
    sequential call leaves; where the sequential call throws, the
    exception is raised inside the parallel algorithm and the program
    terminates. *)
Theorem STDExec_update_nodes_single (time_step : double) (s : State)
    (o : outcome State) :
  (length (inlet_nodes (policy s)) <= 1)%nat ->
  (length (outlet_nodes (policy s)) <= 1)%nat ->
  STDExecVelocityInitializer.update_nodes time_step s o <->
  o = match snd (VelocityInitializer.update_nodes time_step s) with
      | Return _ => Returns (fst (VelocityInitializer.update_nodes time_step s))
      | Throw _ => Terminates
      end.
Proof.
  intros Hli Hlo. split.
  - intros (fr1 & r1 & Hin & Hrest).
    apply for_each_par_single in Hin; [|exact Hli].
    unfold VelocityInitializer.update_nodes. cbn zeta.
    rewrite update_loops_for_each. unfold bind. rewrite Hin.
    destruct r1 as [[]|e]; [|exact Hrest].
    destruct Hrest as (fr2 & r2 & Hout & ->).
    apply for_each_par_single in Hout; [|exact Hlo].
    rewrite Hout. destruct r2 as [[]|e]; reflexivity.
  - intros ->. apply STDExec_update_nodes_in_turn.
Qed.

(** *** A store at a cell of no registered point *)

(** The index array holds [c] in its first [dim] slots. *)
Definition holds (c : array Eigen.Index) (fr : Frame) : Prop :=
  forall k, (k < dim)%nat -> coordinates fr k = c k.

(** From frames that satisfy [P], the command serves [ws] and, when it
    completes normally, ends in a frame that satisfies [Q]. *)
Definition serves (P : Frame -> Prop) (c : M Frame unit)
    (ws : list store_request) (Q : Frame -> Prop) : Prop :=
  forall fr, P fr ->
    (velocity_tensor (fst (c fr)), snd (c fr)) =
      apply_stores ws (velocity_tensor fr) /\
    (snd (c fr) = Normal -> Q (fst (c fr))).

Lemma serves_bind P Q R c1 c2 ws1 ws2 :
  serves P c1 ws1 Q -> serves Q c2 ws2 R ->
  serves P (bind c1 (fun _ => c2)) (ws1 ++ ws2) R.
Proof.
  intros H1 H2 fr HP. destruct (H1 fr HP) as [E1 HQ].
  rewrite apply_stores_app, <- E1. unfold bind.
  destruct (c1 fr) as [fr1 [[]|e]]; cbn [fst snd] in *.
  - apply H2. now apply HQ.
  - split; [reflexivity|discriminate].
Qed.

Lemma serves_ext P Q c c' ws :
  (forall fr, c fr = c' fr) -> serves P c ws Q -> serves P c' ws Q.
Proof. intros E H fr HP. rewrite <- E. now apply H. Qed.

Lemma serves_run_app P Q R steps1 steps2 ws1 ws2 :
  serves P (STDExecVelocityInitializer.run_steps steps1) ws1 Q ->
  serves Q (STDExecVelocityInitializer.run_steps steps2) ws2 R ->
  serves P (STDExecVelocityInitializer.run_steps (steps1 ++ steps2))
    (ws1 ++ ws2) R.
Proof.
  intros H1 H2.
  apply (serves_ext _ _ (bind (STDExecVelocityInitializer.run_steps steps1)
           (fun _ => STDExecVelocityInitializer.run_steps steps2))).
  - intros fr. unfold STDExecVelocityInitializer.run_steps.
    now rewrite for_each_app.
  - now apply (serves_bind P Q R).
Qed.

(** Copying coordinates of [node] into the slots [l] stores nothing. *)
Lemma serves_copy node (l : list nat) (c c' : array Eigen.Index) :
  (forall k, (k < dim)%nat -> In k l -> c' k = coords node k) ->
  (forall k, (k < dim)%nat -> ~ In k l -> c' k = c k) ->
  serves (holds c)
    (STDExecVelocityInitializer.run_steps
       (map (fun k => set_coordinate k (coords node k)) l))
    [] (holds c').
Proof.
  intros Hc1 Hc2 fr Hfr. unfold STDExecVelocityInitializer.run_steps.
  rewrite for_each_map.
  destruct (copy_coordinates node l fr) as (c1 & E & Hin & Hout).
  rewrite E. cbn [fst snd apply_stores]. split; [reflexivity|].
  intros _ k Hk. cbn [coordinates].
  destruct (in_dec Nat.eq_dec k l) as [Hl|Hl].
  - rewrite (Hc1 k Hk Hl). now apply Hin.
  - rewrite (Hc2 k Hk Hl), (Hout k Hl). now apply Hfr.
Qed.

(** The requests of the second inner loop when the index array holds
    [c]: the values are those of [node], the cells are at [c]. *)
Definition stores_at (c : list Eigen.Index) (fns : array update_function)
    (time_step : double) (node : BoundaryPoint) : list store_request :=
  map (fun j => (c ++ [Z.of_nat j],
                 option_map (fun target => target time_step node) (fns j)))
      (seq 0 dim).

(** One step of the second inner loop when the index array holds [c]. *)
Lemma store_component_at fns time_step node (c : array Eigen.Index) j fr :
  holds c fr ->
  (set_coordinate dim (Z.of_nat j) ;;
   val <- call (fns j) time_step node ;;
   store val)%cmd fr =
  match fns j with
  | None => (mkFrame (set (coordinates fr) dim (Z.of_nat j))
               (velocity_tensor fr), Throw bad_function_call)
  | Some target =>
      match Eigen.assign (velocity_tensor fr) (to_list dim c ++ [Z.of_nat j])
              (target time_step node) with
      | Some t' => (mkFrame (set (coordinates fr) dim (Z.of_nat j)) t', Normal)
      | None => (mkFrame (set (coordinates fr) dim (Z.of_nat j))
                   (velocity_tensor fr), Throw assertion_failure)
      end
  end.
Proof.
  intros Hfr.
  assert (Hidx : to_list (S dim) (set (coordinates fr) dim (Z.of_nat j))
                 = to_list dim c ++ [Z.of_nat j]).
  { rewrite to_list_S, set_same. f_equal. apply to_list_ext.
    intros k Hk. rewrite set_other by lia. now apply Hfr. }
  unfold bind, set_coordinate, call.
  destruct (fns j) as [target|]; [|reflexivity].
  unfold ret, store. cbn [coordinates velocity_tensor]. rewrite Hidx.
  destruct (Eigen.assign _ _ _); reflexivity.
Qed.

Lemma serves_stores fns time_step node (c : array Eigen.Index) (l : list nat) :
  serves (holds c)
    (STDExecVelocityInitializer.run_steps
       (flat_map (fun j =>
          [ set_coordinate dim (Z.of_nat j);
            (val <- call (fns j) time_step node ;; store val)%cmd ]) l))
    (map (fun j => (to_list dim c ++ [Z.of_nat j],
                    option_map (fun target => target time_step node) (fns j))) l)
    (holds c).
Proof.
  unfold STDExecVelocityInitializer.run_steps.
  induction l as [|j l IH]; intros fr Hfr.
  - split; [reflexivity|]. intros _. exact Hfr.
  - cbn [flat_map app for_each map apply_stores].
    rewrite <- (bind_assoc (set_coordinate dim (Z.of_nat j))
                  (fun _ => (val <- call (fns j) time_step node ;; store val)%cmd)
                  (fun _ => for_each _ (fun step => step)) fr).
    pose proof (store_component_at fns time_step node c j fr Hfr) as E.
    destruct (fns j) as [target|]; cbn [option_map];
      [|rewrite (bind_Throw _ _ _ _ _ E); split; [reflexivity|discriminate]].
    destruct (Eigen.assign (velocity_tensor fr) (to_list dim c ++ [Z.of_nat j])
                (target time_step node)) as [t'|];
      [|rewrite (bind_Throw _ _ _ _ _ E); split; [reflexivity|discriminate]].
    rewrite (bind_Return _ _ _ _ _ E).
    apply (IH (mkFrame (set (coordinates fr) dim (Z.of_nat j)) t')).
    intros k Hk. cbn [coordinates]. rewrite set_other by lia. now apply Hfr.
Qed.

End SharedCoordinates.

Section StrayStore.
Context {L : Lattice}.

(** The coordinates of [p] with the first one replaced by that of [q]:
    what the shared index array holds when the access to [q] starts
    between the two inner loops of the access to [p]. *)
Definition mixed_point (p q : BoundaryPoint) : list Eigen.Index :=
  to_list dim (set (coords p) 0%nat (coords q 0%nat)).

(** The access to [p] copies its coordinates; the access to [q] copies
    its first coordinate; the access to [p] runs its second loop; the
    access to [q] runs to its end. *)
Definition stray_schedule (fns : array update_function) (time_step : double)
    (p q : BoundaryPoint) : list (M Frame unit) :=
  map (fun k => set_coordinate k (coords p k)) (seq 0 dim) ++
  map (fun k => set_coordinate k (coords q k)) [0%nat] ++
  flat_map (fun j =>
      [ set_coordinate dim (Z.of_nat j);
        (val <- call (fns j) time_step p ;; store val)%cmd ])
    (seq 0 dim) ++
  map (fun k => set_coordinate k (coords q k)) (seq 1 (dim - 1)) ++
  flat_map (fun j =>
      [ set_coordinate dim (Z.of_nat j);
        (val <- call (fns j) time_step q ;; store val)%cmd ])
    (seq 0 dim).

Lemma interleaving_two_phase {A} (a1 a2 b1 b2 : list A) :
  interleaving [a1 ++ a2; b1 ++ b2] (a1 ++ b1 ++ a2 ++ b2).
Proof.
  apply interleaving_left, interleaving_right.
  assert (H : interleaving [a2 ++ []; b2 ++ []] (a2 ++ b2 ++ [])).
  { apply interleaving_left, interleaving_right, interleaving_done.
    repeat constructor. }
  now rewrite !app_nil_r in H.
Qed.

Lemma stray_schedule_interleaving fns time_step p q :
  (0 < dim)%nat ->
  interleaving
    (map (STDExecVelocityInitializer.node_steps fns time_step) [p; q])
    (stray_schedule fns time_step p q).
Proof.
  intros Hdim.
  assert (Es : seq 0 dim = [0%nat] ++ seq 1 (dim - 1)).
  { replace dim with (S (dim - 1)) at 1 by lia. reflexivity. }
  assert (Eq : STDExecVelocityInitializer.node_steps fns time_step q =
               map (fun k => set_coordinate k (coords q k)) [0%nat] ++
               (map (fun k => set_coordinate k (coords q k)) (seq 1 (dim - 1)) ++
                flat_map (fun j =>
                    [ set_coordinate dim (Z.of_nat j);
                      (val <- call (fns j) time_step q ;; store val)%cmd ])
                  (seq 0 dim))).
  { unfold STDExecVelocityInitializer.node_steps.
    rewrite Es at 1. now rewrite map_app, <- app_assoc. }
  cbn [map]. rewrite Eq.
  unfold STDExecVelocityInitializer.node_steps, stray_schedule.
  apply interleaving_two_phase.
Qed.

Lemma stray_schedule_serves fns time_step p q :
  (0 < dim)%nat ->
  serves (fun _ => True)
    (STDExecVelocityInitializer.run_steps (stray_schedule fns time_step p q))
    (stores_at (mixed_point p q) fns time_step p ++ node_stores fns time_step q)
    (holds (coords q)).
Proof.
  intros Hdim. unfold stray_schedule.
  change (stores_at (mixed_point p q) fns time_step p ++
          node_stores fns time_step q)
    with ([] ++ [] ++ stores_at (mixed_point p q) fns time_step p ++
          [] ++ node_stores fns time_step q).
  apply (serves_run_app _ (holds (coords p))).
  { intros fr _.
    apply (serves_copy p (seq 0 dim) (coordinates fr) (coords p)).
    - reflexivity.
    - intros k Hk Hn. destruct Hn. apply in_seq. lia.
    - intros k _. reflexivity. }
  apply (serves_run_app _ (holds (set (coords p) 0%nat (coords q 0%nat)))).
  { apply serves_copy.
    - intros k _ [<-|[]]. apply set_same.
    - intros k _ Hn. apply set_other. intros ->. apply Hn. now left. }
  apply (serves_run_app _ (holds (set (coords p) 0%nat (coords q 0%nat)))).
  { apply serves_stores. }
  apply (serves_run_app _ (holds (coords q))).
  { apply serves_copy.
    - reflexivity.
    - intros k Hk Hn. destruct k as [|k]; [now rewrite set_same|].
      destruct Hn. apply in_seq. lia. }
  apply serves_stores.
Qed.

Lemma stores_at_consistent c fns time_step node :
  consistent (stores_at c fns time_step node).
Proof.
  intros w1 w2 H1 H2 E. unfold stores_at in *.
  apply in_map_iff in H1 as (j1 & <- & _).
  apply in_map_iff in H2 as (j2 & <- & _).
  simpl in E. apply app_inj_tail in E as [_ E].
  apply Nat2Z.inj in E. subst j2. reflexivity.
Qed.

(** Points that differ in their first coordinate have different
    coordinate tuples. *)
Lemma first_coordinate_apart (a b : array Eigen.Index) :
  (0 < dim)%nat -> a 0%nat <> b 0%nat -> to_list dim a <> to_list dim b.
Proof.
  intros Hdim Hab E. unfold to_list in E.
  replace dim with (S (dim - 1)) in E by lia.
  cbn [seq map] in E. injection E as E _. auto.
Qed.

(** Two inlet nodes [p] and [q] (and no outlet node) that differ in
    their first coordinate and in some other one, in a ready state
    whose field also contains the mixed coordinates: these belong to no
    registered node, and there is a run of the parallel-algorithm policy
    that returns, has stored the values of [p] at the mixed coordinates,
    and has left the cells of [p] as they were. *)
Theorem STDExec_stray_store (time_step : double) (s : State)
    (p q : BoundaryPoint) :
  (0 < dim)%nat ->
  inlet_nodes (policy s) = [p; q] -> outlet_nodes (policy s) = [] ->
  Eigen.allocated (velocity s) -> ready s ->
  (forall j, (j < dim)%nat ->
     Eigen.checkIndexRange (Eigen.dimensions (velocity s))
       (mixed_point p q ++ [Z.of_nat j]) = true) ->
  coords p 0%nat <> coords q 0%nat ->
  mixed_point p q <> Point q ->
  ~ In (mixed_point p q)
      (map Point (inlet_nodes (policy s) ++ outlet_nodes (policy s))) /\
  exists s',
    STDExecVelocityInitializer.update_nodes time_step s (Returns s') /\
    (forall j target,
       (j < dim)%nat -> inlet_update_function (policy s) j = Some target ->
       Eigen.coeff (velocity s') (mixed_point p q ++ [Z.of_nat j])
         = Some (target time_step p)) /\
    (forall j,
       Eigen.coeff (velocity s') (Point p ++ [j]) =
       Eigen.coeff (velocity s) (Point p ++ [j])).
Proof.
  intros Hdim Hin Hout Hal [Hri _] Hm H0 Hmq.
  assert (Hpm : Point p <> mixed_point p q).
  { apply first_coordinate_apart; [exact Hdim|]. now rewrite set_same. }
  assert (Hpq : Point p <> Point q)
    by now apply first_coordinate_apart.
  split.
  { rewrite Hin, Hout. cbn [app map In]. intros [H|[H|[]]]; auto. }
  set (fi := inlet_update_function (policy s)) in *.
  set (ws := stores_at (mixed_point p q) fi time_step p ++
             node_stores fi time_step q).
  set (fr0 := mkFrame indeterminate (velocity s)).
  destruct (stray_schedule_serves fi time_step p q Hdim fr0 I) as [Erun _].
  fold ws in Erun. cbn [velocity_tensor fr0] in Erun.
  rewrite Hin in Hri.
  assert (Hs : Forall (servable (Eigen.dimensions (velocity s))) ws).
  { apply Forall_app. split.
    - apply List.Forall_forall. intros w Hw. unfold stores_at in Hw.
      apply in_map_iff in Hw as (j & <- & Hj). apply in_seq in Hj.
      split; cbn [fst snd]; [apply Hm; lia|].
      destruct (Hri p j) as [[target Ht] _]; [now left | lia |].
      rewrite Ht. cbn. eauto.
    - rewrite <- (app_nil_r (node_stores fi time_step q)).
      change (node_stores fi time_step q ++ [])
        with (flat_map (node_stores fi time_step) [q]).
      apply servable_node_stores. intros node j Hn. apply Hri. now right. }
  assert (Hc : consistent ws).
  { apply consistent_app.
    - apply stores_at_consistent.
    - apply node_stores_consistent.
    - intros w1 w2 H1 H2 E. unfold stores_at, node_stores in *.
      apply in_map_iff in H1 as (j1 & <- & _).
      apply in_map_iff in H2 as (j2 & <- & _).
      cbn [fst] in E. apply app_inj_tail in E as [E _]. auto. }
  assert (Hn : snd (apply_stores ws (velocity s)) = Normal)
    by now apply apply_stores_Normal.
  exists (mkState (policy s) (fst (apply_stores ws (velocity s))) (density s)).
  split; [|split].
  - exists (fst (STDExecVelocityInitializer.run_steps
                   (stray_schedule fi time_step p q) fr0)), Normal.
    split.
    + exists (stray_schedule fi time_step p q). split.
      * rewrite Hin. now apply stray_schedule_interleaving.
      * rewrite (surjective_pairing (STDExecVelocityInitializer.run_steps _ _)).
        f_equal. rewrite <- Hn, <- Erun. reflexivity.
    + eexists. exists Normal. split.
      * exists []. split; [|reflexivity]. rewrite Hout.
        apply interleaving_done. constructor.
      * cbn. do 2 f_equal. rewrite <- Erun. reflexivity.
  - intros j target Hj Ht. cbn [velocity].
    apply apply_stores_honours; auto.
    apply in_app_iff. left. unfold stores_at. apply in_map_iff.
    exists j. fold fi in Ht. rewrite Ht. split; [reflexivity|].
    apply in_seq. lia.
  - intros j. cbn [velocity]. apply apply_stores_frame.
    unfold ws. rewrite map_app, in_app_iff. intros [H|H].
    + unfold stores_at in H. rewrite map_map in H. cbn [fst] in H.
      apply in_map_iff in H as (j' & E & _).
      apply app_inj_tail in E as [E _]. auto.
    + rewrite node_stores_cells in H. apply node_cells_Point in H. auto.
Qed.

End StrayStore.

Section UninitialisedCoordinates.
Context {L : Lattice}.

(** The index array [coordinates] is declared without initialiser; what
    it holds at first has no influence on the field the loops leave nor
    on how they end. *)
Theorem update_loops_any_coordinates (st : Statics) (time_step : double)
    (t : Eigen.Tensor) (c1 c2 : array Eigen.Index) :
  velocity_tensor (fst (update_loops st time_step (mkFrame c1 t))) =
  velocity_tensor (fst (update_loops st time_step (mkFrame c2 t))) /\
  snd (update_loops st time_step (mkFrame c1 t)) =
  snd (update_loops st time_step (mkFrame c2 t)).
Proof.
  pose proof (update_loops_stores st time_step (mkFrame c1 t)) as H1.
  pose proof (update_loops_stores st time_step (mkFrame c2 t)) as H2.
  cbn [velocity_tensor] in H1, H2. rewrite <- H2 in H1.
  injection H1 as Hv Hr. auto.
Qed.

End UninitialisedCoordinates.

(* ===================================================================== *)
(** ** Concrete runs *)
(* ===================================================================== *)

Module Runs2D.

(** A velocity that grows with time: (time, 0). *)
Definition growing_velocity : array update_function :=
  fun j => match j with
           | 0%nat => Some (fun time _ => time)
           | _ => Some (fun _ _ => 0%float)
           end.

Definition two_inlets_growing : State :=
  attach_update_functions growing_velocity unset two_inlets.

(** One inlet node and one outlet node, the outlet functions empty. *)
Definition outlet_unset : State :=
  attach_nodes [node_a] [node_b] two_inlets.

(** An inlet node outside the 4 x 3 grid, and an outlet node with the
    outlet functions empty. *)
Definition inlet_outside : State :=
  attach_nodes [mkPoint 4 0] [node_b] two_inlets.

(** One inlet node and one outlet node, all functions set. *)
Definition one_each : State :=
  attach_update_functions constant_velocity outflow_velocity
    (attach_nodes [node_a] [node_b] two_inlets).

(** Two inlet nodes that differ in both coordinates. *)
Definition node_d : BoundaryPoint2 := mkPoint 1 2.

Definition two_apart : State := attach_nodes [node_a; node_d] [] two_inlets.

(** The 100 x 100 lattice of [LidWithOMPPSobstacle.cpp], at rest. *)
Definition lid_field : Eigen.Tensor :=
  Eigen.mkTensor [100; 100; 2] (repeat 0%float (Z.to_nat 20000)).

Definition lid_state : State := mkState Lid2D.fresh lid_field unit_density.

(** A stand-in for [std::exp] that is right at zero. *)
Definition exp_at_zero : double -> double :=
  fun x => if PrimFloat.eqb x 0 then 1%float else 0.5%float.

End Runs2D.

Import Runs2D.

Lemma update_nodes_overrides_witness :
  ready two_inlets_growing /\
  velocity (fst (update_nodes 0.5%float two_inlets_growing)) <>
  velocity (fst (update_nodes 0.25%float two_inlets_growing)) /\
  update_nodes 0.5%float (fst (update_nodes 0.25%float two_inlets_growing)) =
  update_nodes 0.5%float two_inlets_growing.
Proof.
  assert (Hr : ready two_inlets_growing)
    by (apply (update_nodes_Normal 0%float); reflexivity).
  split; [exact Hr|]. split.
  - intros E. apply (f_equal (fun t => Eigen.coeff t [0; 1; 0])) in E.
    vm_compute in E. revert E. apply double_neq; reflexivity.
  - exact (update_nodes_overrides 0.25%float 0.5%float two_inlets_growing Hr).
Defined.

Lemma update_nodes_without_duplicates_witness :
  Eigen.allocated (velocity two_inlets) /\ ready two_inlets /\
  List.NoDup (map Point (inlet_nodes (policy two_inlets) ++
                         outlet_nodes (policy two_inlets))) /\
  Eigen.coeff (velocity (fst (update_nodes 0%float two_inlets)))
    (Point node_b ++ [0]) = Some one_fifth.
Proof.
  assert (Hal : Eigen.allocated (velocity two_inlets)) by reflexivity.
  assert (Hr : ready two_inlets)
    by (apply (update_nodes_Normal 0%float); reflexivity).
  assert (Hnd : List.NoDup (map Point (inlet_nodes (policy two_inlets) ++
                                       outlet_nodes (policy two_inlets)))).
  { simpl. repeat constructor; simpl; intuition discriminate. }
  repeat (split; [assumption|]).
  destruct (update_nodes_without_duplicates 0%float two_inlets Hal Hr Hnd)
    as (_ & Hin & _).
  apply (Hin node_b 0%nat (fun _ _ => one_fifth)).
  - simpl. tauto.
  - simpl. lia.
  - reflexivity.
Defined.

Lemma update_nodes_failure_cause_witness :
  snd (update_nodes 0%float outlet_unset) = Throw bad_function_call /\
  exists j, (j < dim)%nat /\
    ((inlet_nodes (policy outlet_unset) <> [] /\
      inlet_update_function (policy outlet_unset) j = None) \/
     (outlet_nodes (policy outlet_unset) <> [] /\
      outlet_update_function (policy outlet_unset) j = None)).
Proof.
  split; [reflexivity|].
  exact (proj1 (update_nodes_failure_cause 0%float outlet_unset) eq_refl).
Defined.

Lemma update_nodes_empty_outlet_function_witness :
  outlet_nodes (policy outlet_unset) <> [] /\
  outlet_update_function (policy outlet_unset) 0%nat = None /\
  snd (update_nodes 0%float outlet_unset) = Throw bad_function_call /\
  Eigen.coeff (velocity (fst (update_nodes 0%float outlet_unset))) [0; 1; 0]
    = Some one_fifth /\
  update_nodes 0%float inlet_outside = (inlet_outside, Throw assertion_failure).
Proof.
  assert (Hne : outlet_nodes (policy outlet_unset) <> []) by discriminate.
  assert (Hdim : (0 < dim)%nat) by (simpl; lia).
  assert (Hf : outlet_update_function (policy outlet_unset) 0%nat = None)
    by reflexivity.
  split; [exact Hne|]. split; [exact Hf|].
  rewrite (update_nodes_empty_outlet_function 0%float outlet_unset
             Hne Hdim Hf).
  split; [reflexivity|]. split; [reflexivity|].
  rewrite (update_nodes_empty_outlet_function 0%float inlet_outside
             Hne Hdim Hf).
  reflexivity.
Defined.

Lemma update_nodes_order_irrelevant_witness :
  Permutation (inlet_nodes (policy two_inlets)) [node_b; node_a] /\
  velocity (fst (update_nodes 0%float
                   (attach_nodes [node_b; node_a] [] two_inlets))) =
  velocity (fst (update_nodes 0%float two_inlets)).
Proof.
  assert (Hp : Permutation (inlet_nodes (policy two_inlets)) [node_b; node_a])
    by apply perm_swap.
  split; [exact Hp|].
  apply (update_nodes_order_irrelevant 0%float two_inlets [node_b; node_a] []).
  - exact Hp.
  - apply perm_nil.
  - simpl. repeat constructor; simpl; intuition discriminate.
  - simpl. constructor.
  - apply (update_nodes_Normal 0%float). reflexivity.
Defined.

Lemma STDExec_update_nodes_admits_sequential_witness :
  ready two_inlets /\
  STDExecVelocityInitializer.update_nodes 0%float two_inlets
    (Returns (fst (VelocityInitializer.update_nodes 0%float two_inlets))).
Proof.
  assert (Hr : ready two_inlets)
    by (apply (update_nodes_Normal 0%float); reflexivity).
  split; [exact Hr|].
  exact (proj2 (STDExec_update_nodes_admits_sequential 0%float two_inlets Hr)).
Defined.

Lemma OMP_update_nodes_frame_witness :
  ~ In [3; 0] (map Point (inlet_nodes (policy two_inlets) ++
                          outlet_nodes (policy two_inlets))) /\
  Eigen.coeff (velocity (fst (VelocityInitializer.update_nodes 0%float two_inlets)))
    ([3; 0] ++ [1])
  = Eigen.coeff (velocity two_inlets) ([3; 0] ++ [1]).
Proof.
  assert (H : ~ In [3; 0] (map Point (inlet_nodes (policy two_inlets) ++
                                      outlet_nodes (policy two_inlets)))).
  { simpl. intros [H|[H|[]]]; discriminate H. }
  split; [exact H|].
  exact (proj1 (OMP_update_nodes_frame 0%float two_inlets
                  (fst (VelocityInitializer.update_nodes 0%float two_inlets))
                  [3; 0] 1
                  (OMP_update_nodes_admits_sequential 0%float two_inlets) H)).
Defined.

Lemma STDExec_update_nodes_single_witness :
  (length (inlet_nodes (policy one_each)) <= 1)%nat /\
  (length (outlet_nodes (policy one_each)) <= 1)%nat /\
  STDExecVelocityInitializer.update_nodes 0%float one_each
    (Returns (fst (VelocityInitializer.update_nodes 0%float one_each))) /\
  STDExecVelocityInitializer.update_nodes 0%float outlet_unset Terminates.
Proof.
  assert (Hi : (length (inlet_nodes (policy one_each)) <= 1)%nat)
    by (simpl; lia).
  assert (Ho : (length (outlet_nodes (policy one_each)) <= 1)%nat)
    by (simpl; lia).
  split; [exact Hi|]. split; [exact Ho|]. split.
  - apply (STDExec_update_nodes_single 0%float one_each _ Hi Ho). reflexivity.
  - apply (STDExec_update_nodes_single 0%float outlet_unset _ Hi Ho).
    reflexivity.
Defined.

Lemma STDExec_stray_store_witness :
  mixed_point node_a node_d = [1; 1] /\
  ~ In [1; 1] (map Point (inlet_nodes (policy two_apart))) /\
  exists s',
    STDExecVelocityInitializer.update_nodes 0%float two_apart (Returns s') /\
    Eigen.coeff (velocity s') [1; 1; 0] = Some one_fifth /\
    Eigen.coeff (velocity s') [0; 1; 0] = Some 1%float.
Proof.
  split; [reflexivity|]. split.
  { simpl. intros [H|[H|[]]]; discriminate H. }
  destruct (STDExec_stray_store 0%float two_apart node_a node_d)
    as (_ & s' & Hrun & Hstray & Hown).
  - simpl. lia.
  - reflexivity.
  - reflexivity.
  - reflexivity.
  - apply (update_nodes_Normal 0%float). reflexivity.
  - intros j Hj. destruct j as [|[|j]]; [reflexivity|reflexivity|simpl in Hj; lia].
  - discriminate.
  - discriminate.
  - exists s'. split; [exact Hrun|]. split.
    + apply (Hstray 0%nat (fun _ _ => one_fifth)); [simpl; lia | reflexivity].
    + exact (Hown 0).
Defined.

Lemma lid_field_allocated : Eigen.allocated lid_field.
Proof.
  unfold Eigen.allocated, lid_field. cbn [Eigen.data Eigen.dimensions].
  rewrite repeat_length. reflexivity.
Qed.

Lemma OMP_lid_inlets_witness :
  Forall (LidWithOMPPSobstacle.on_inlet_interval BoundaryPoint2 coords2)
    [node_a; node_b] /\
  exists s',
    OMPVelocityInitializer.update_nodes 0%float
      (attach_nodes [node_a; node_b] []
         (LidWithOMPPSobstacle.main_attach exp_at_zero BoundaryPoint2 coords2
            lid_state))
      (Returns s') /\
    Eigen.coeff (velocity s') [0; 1; 0] =
    Some (one_fifth * LidWithOMPPSobstacle.start_up exp_at_zero 0)%float.
Proof.
  assert (Hn : Forall (LidWithOMPPSobstacle.on_inlet_interval BoundaryPoint2 coords2)
                 [node_a; node_b]).
  { repeat constructor; simpl; lia. }
  split; [exact Hn|].
  pose proof (OMP_update_nodes_admits_sequential (L:=LidWithOMPPSobstacle.lattice2 BoundaryPoint2 coords2) 0%float
                (attach_nodes [node_a; node_b] []
                   (LidWithOMPPSobstacle.main_attach exp_at_zero BoundaryPoint2
                      coords2 lid_state))) as Hrun.
  set (o := in_parallel_region _) in Hrun. clearbody o.
  destruct (LidWithOMPPSobstacle.OMP_lid_inlets exp_at_zero BoundaryPoint2
              coords2 0%float lid_state o [node_a; node_b] Hn eq_refl
              lid_field_allocated Hrun) as (s' & E & Hv).
  subst o. exists s'. split; [exact Hrun|].
  exact (proj1 (Hv node_a (or_introl eq_refl))).
Defined.

Lemma VelocityFunctions_start_at_rest_witness :
  exp_at_zero (-0)%float = 1%float /\
  PrimFloat.eqb
    (LidWithOMPPSobstacle.VelocityFunctions_1 exp_at_zero BoundaryPoint2 coords2
       0%float (mkPoint 0 99)) 0%float = true.
Proof.
  split; [reflexivity|].
  exact (LidWithOMPPSobstacle.VelocityFunctions_start_at_rest exp_at_zero
           BoundaryPoint2 coords2 (mkPoint 0 99) 1%nat _ eq_refl eq_refl).
Defined.
